(** * Directional duplicate: collision propagation, ordering and section growth

    A shallow embedding of [code.js], the Figma plugin that duplicates the
    selected frames along a compass direction.  The scene graph of the host
    is an arena of nodes addressed by identity; coordinates are JavaScript
    numbers, modelled as exact rationals.

    The repository carries two revisions of [pushSiblings]: the breadth-first
    one (module [Bfs]) and the corridor one (module [Corridor]).  Everything
    else is common to both revisions, but for the page selection, which one
    revision sets to the created nodes at the end and which is not part of
    the scene modelled here.

    Host calls other than [insertChild] do not raise in the model, and the
    numbers are finite. *)

From Stdlib Require Import QArith Qround Lqa.
From stdpp Require Import base list sorting gmap strings.

Open Scope Q_scope.

(** ** Numbers *)

(** [a < b] on JavaScript numbers. *)
Definition Qltb (a b : Q) : bool :=
  match a ?= b with Lt => true | _ => false end.

(** [a > b]. *)
Definition Qgtb (a b : Q) : bool := Qltb b a.

(** [a >= b]. *)
Definition Qgeb (a b : Q) : bool := negb (Qltb a b).

(** [a <= b]. *)
Definition Qleb (a b : Q) : bool := negb (Qltb b a).

(** ** Strings *)

(** [s.includes(sub)]: [sub] occurs in [s] as a contiguous substring. *)
Fixpoint includes (s sub : string) : bool :=
  String.prefix sub s
  || match s with
     | EmptyString => false
     | String _ s' => includes s' sub
     end.

(** ** The scene graph *)

(** Identity of a node: its address in the arena. *)
Abbreviation NodeId := nat.

Record Node := mkNode {
  x : Q;
  y : Q;
  width : Q;
  height : Q;
  locked : bool;
  type : string;
  (** [None] when the property is absent (['layoutMode' in parent] is false). *)
  layoutMode : option string;
  parent : option NodeId;
  children : list NodeId
}.

Abbreviation Scene := (list Node).

(** A reference that leaves the arena reads as an empty node at the origin;
    scenes handed over by the host have no such reference. *)
Definition nullNode : Node :=
  mkNode 0 0 0 0 false "" None None [].

Global Instance Node_inhabited : Inhabited Node := populate nullNode.

Definition node (σ : Scene) (i : NodeId) : Node := σ !!! i.

Definition set_x (v : Q) (n : Node) : Node :=
  mkNode v (y n) (width n) (height n) (locked n) (type n) (layoutMode n)
         (parent n) (children n).

Definition set_y (v : Q) (n : Node) : Node :=
  mkNode (x n) v (width n) (height n) (locked n) (type n) (layoutMode n)
         (parent n) (children n).

Definition set_size (w h : Q) (n : Node) : Node :=
  mkNode (x n) (y n) w h (locked n) (type n) (layoutMode n)
         (parent n) (children n).

Definition set_locked (b : bool) (n : Node) : Node :=
  mkNode (x n) (y n) (width n) (height n) b (type n) (layoutMode n)
         (parent n) (children n).

Definition set_parent (p : option NodeId) (n : Node) : Node :=
  mkNode (x n) (y n) (width n) (height n) (locked n) (type n) (layoutMode n)
         p (children n).

Definition set_children (cs : list NodeId) (n : Node) : Node :=
  mkNode (x n) (y n) (width n) (height n) (locked n) (type n) (layoutMode n)
         (parent n) cs.

(** ** Gap policy *)

(** [getDetectedGap(nodes)]; [None] is a missing argument ([!nodes]). *)
Definition getDetectedGap (nodes : option (list Node)) : Q :=
  match nodes with
  | None => 40
  | Some [] => 40
  | Some (first :: _) => if Qgtb (width first) 400 then 100 else 40
  end.

(** ** Direction offsets *)

(** The statement form
    [if (direction.includes('left')) v -= s; else if (direction.includes('right')) v += s;]
    used for the target rectangle, for the final moves and for the clone. *)
Definition shiftH (direction : string) (s v : Q) : Q :=
  if includes direction "left" then v - s
  else if includes direction "right" then v + s
  else v.

Definition shiftV (direction : string) (s v : Q) : Q :=
  if includes direction "top" then v - s
  else if includes direction "bottom" then v + s
  else v.

(** The expression form
    [direction.includes('left') ? -s : (direction.includes('right') ? s : 0)]. *)
Definition offsetH (direction : string) (s : Q) : Q :=
  if includes direction "left" then - s
  else if includes direction "right" then s
  else 0.

Definition offsetV (direction : string) (s : Q) : Q :=
  if includes direction "top" then - s
  else if includes direction "bottom" then s
  else 0.

(** ** Collision propagation, breadth-first revision *)

Module Bfs.

(** The object literal [{x, y, width, height}] kept in [checkQueue]. *)
Record Rect := mkRect {
  rx : Q;
  ry : Q;
  rwidth : Q;
  rheight : Q
}.

Definition margin : Q := 0.5.

Definition overlaps (sibling : Node) (rect : Rect) : bool :=
  Qltb (x sibling) (rx rect + rwidth rect - margin)
  && Qgtb (x sibling + width sibling) (rx rect + margin)
  && Qltb (y sibling) (ry rect + rheight rect - margin)
  && Qgtb (y sibling + height sibling) (ry rect + margin).

(** The rectangle the duplicate of [originalNode] will occupy. *)
Definition targetRect (direction : string) (shiftX shiftY : Q)
    (originalNode : Node) : Rect :=
  mkRect (shiftH direction shiftX (x originalNode))
         (shiftV direction shiftY (y originalNode))
         (width originalNode) (height originalNode).

(** The position a collected sibling will have after the move. *)
Definition futureRect (direction : string) (shiftX shiftY : Q)
    (sibling : Node) : Rect :=
  mkRect (x sibling + offsetH direction shiftX)
         (y sibling + offsetV direction shiftY)
         (width sibling) (height sibling).

(** The three locals of the traversal. [nodesToMove] is a JavaScript [Set]
    of node objects, kept in insertion order. *)
Record State := mkState {
  nodesToMove : list NodeId;
  processed : gset NodeId;
  checkQueue : list Rect
}.

(** [Set.prototype.add]. *)
Definition set_add (s : NodeId) (l : list NodeId) : list NodeId :=
  if decide (s ∈ l) then l else l ++ [s].

Section Traversal.
Variable σ : Scene.
Variable direction : string.
Variables shiftX shiftY : Q.

(** Body of [for (const sibling of parent.children)]. *)
Definition visit (rect : Rect) (st : State) (sibling : NodeId) : State :=
  if decide (sibling ∈ processed st) then st
  else if overlaps (node σ sibling) rect then
    mkState (set_add sibling (nodesToMove st))
            ({[sibling]} ∪ processed st)
            (checkQueue st ++ [futureRect direction shiftX shiftY (node σ sibling)])
  else st.

Definition scan (siblings : list NodeId) (rect : Rect) (st : State) : State :=
  foldl (visit rect) st siblings.

(** [while (checkQueue.length > 0)]: one unit of fuel per iteration. *)
Fixpoint loop (fuel : nat) (siblings : list NodeId) (st : State) : option State :=
  match checkQueue st with
  | [] => Some st
  | rect :: rest =>
      match fuel with
      | O => None
      | S fuel' =>
          loop fuel' siblings
               (scan siblings rect (mkState (nodesToMove st) (processed st) rest))
      end
  end.

(** Body of [for (const node of nodesToMove)]. *)
Definition moveNode (n : Node) : Node :=
  set_y (shiftV direction shiftY (y n)) (set_x (shiftH direction shiftX (x n)) n).

Definition applyMoves (moved : list NodeId) (σ0 : Scene) : Scene :=
  foldl (fun acc i => alter moveNode i acc) σ0 moved.
End Traversal.

Definition initState (direction : string) (shiftX shiftY : Q)
    (originalNode : Node) (excludedIds : gset NodeId) : State :=
  mkState [] excludedIds [targetRect direction shiftX shiftY originalNode].

(** The traversal of [pushSiblings] up to the end of the [while] loop. *)
Definition collect (σ : Scene) (originalNode : NodeId) (p : NodeId)
    (direction : string) (shiftX shiftY : Q) (excludedIds : gset NodeId)
    : option State :=
  let siblings := children (node σ p) in
  loop σ direction shiftX shiftY (S (length siblings)) siblings
       (initState direction shiftX shiftY (node σ originalNode) excludedIds).

Definition pushSiblings (σ : Scene) (originalNode : NodeId) (direction : string)
    (shiftX shiftY : Q) (excludedIds : gset NodeId) : Scene :=
  match parent (node σ originalNode) with
  | None => σ
  | Some p =>
      match collect σ originalNode p direction shiftX shiftY excludedIds with
      | Some st => applyMoves direction shiftX shiftY (nodesToMove st) σ
      | None => σ
      end
  end.

End Bfs.

(** ** Collision propagation, corridor revision *)

Module Corridor.

Definition margin : Q := 0.5.

Section Push.
Variable direction : string.
Variables shiftX shiftY : Q.
Variable excludedIds : gset NodeId.
Variable originalNode : NodeId.

(** Body of [for (const sibling of parent.children)].  The siblings are
    moved inside the loop, so [originalNode] is read from the current
    scene at every iteration. *)
Definition visit (σ : Scene) (s : NodeId) : Scene :=
  if decide (s ∈ excludedIds) then σ
  else
    let sibling := node σ s in
    let orig := node σ originalNode in
    let alignedVertically :=
      Qltb (y sibling) (y orig + height orig - margin)
      && Qgtb (y sibling + height sibling) (y orig + margin) in
    let alignedHorizontally :=
      Qltb (x sibling) (x orig + width orig - margin)
      && Qgtb (x sibling + width sibling) (x orig + margin) in
    let moveX :=
      if includes direction "right" && alignedVertically then
        if Qgeb (x sibling) (x orig + width orig - margin)
        then 0 + shiftX else 0
      else if includes direction "left" && alignedVertically then
        if Qleb (x sibling + width sibling) (x orig + margin)
        then 0 - shiftX else 0
      else 0 in
    let moveY :=
      if includes direction "bottom" && alignedHorizontally then
        if Qgeb (y sibling) (y orig + height orig - margin)
        then 0 + shiftY else 0
      else if includes direction "top" && alignedHorizontally then
        if Qleb (y sibling + height sibling) (y orig + margin)
        then 0 - shiftY else 0
      else 0 in
    if negb (Qeq_bool moveX 0) || negb (Qeq_bool moveY 0) then
      alter (fun n => set_y (y n + moveY) (set_x (x n + moveX) n)) s σ
    else σ.

End Push.

Definition pushSiblings (σ : Scene) (originalNode : NodeId) (direction : string)
    (shiftX shiftY : Q) (excludedIds : gset NodeId) : Scene :=
  match parent (node σ originalNode) with
  | None => σ
  | Some p =>
      foldl (visit direction shiftX shiftY excludedIds originalNode) σ
            (children (node σ p))
  end.

End Corridor.

(** ** Container adaptation *)

Definition SECTION_PADDING : Q := 80.

(** Modelled from the spec: the host's [resize] and
    [resizeWithoutConstraints], which set a container's width and height
    (section 6, "Mutate").  Section nodes always offer one of the two. *)
Definition resizeParent (p : NodeId) (w h : Q) (σ : Scene) : Scene :=
  alter (set_size w h) p σ.

Definition growRight (n p : NodeId) (σ : Scene) : Scene :=
  if Qgtb (x (node σ n) + width (node σ n)) (width (node σ p) - SECTION_PADDING)
  then resizeParent p (x (node σ n) + width (node σ n) + SECTION_PADDING)
                    (height (node σ p)) σ
  else σ.

Definition growBottom (n p : NodeId) (σ : Scene) : Scene :=
  if Qgtb (y (node σ n) + height (node σ n)) (height (node σ p) - SECTION_PADDING)
  then resizeParent p (width (node σ p))
                    (y (node σ n) + height (node σ n) + SECTION_PADDING) σ
  else σ.

(** [for (const child of parent.children) if (!child.locked) child.x -= shift;] *)
Definition shiftChildX (shift : Q) (σ : Scene) (child : NodeId) : Scene :=
  if locked (node σ child) then σ
  else alter (fun c => set_x (x c - shift) c) child σ.

Definition shiftChildY (shift : Q) (σ : Scene) (child : NodeId) : Scene :=
  if locked (node σ child) then σ
  else alter (fun c => set_y (y c - shift) c) child σ.

Definition growLeft (n p : NodeId) (σ : Scene) : Scene :=
  if Qltb (x (node σ n)) SECTION_PADDING then
    let shift := x (node σ n) - SECTION_PADDING in
    let σ1 := resizeParent p (width (node σ p) - shift) (height (node σ p)) σ in
    let σ2 := alter (fun q => set_x (x q + shift) q) p σ1 in
    foldl (shiftChildX shift) σ2 (children (node σ2 p))
  else σ.

Definition growTop (n p : NodeId) (σ : Scene) : Scene :=
  if Qltb (y (node σ n)) SECTION_PADDING then
    let shift := y (node σ n) - SECTION_PADDING in
    let σ1 := resizeParent p (width (node σ p)) (height (node σ p) - shift) σ in
    let σ2 := alter (fun q => set_y (y q + shift) q) p σ1 in
    foldl (shiftChildY shift) σ2 (children (node σ2 p))
  else σ.

Definition expandSectionIfNeeded (n : NodeId) (σ : Scene) : Scene :=
  match parent (node σ n) with
  | None => σ
  | Some p =>
      if negb (String.eqb (type (node σ p)) "SECTION") || locked (node σ p)
      then σ
      else growTop n p (growLeft n p (growBottom n p (growRight n p σ)))
  end.

(** ** The orchestrator *)

(** The comparator handed to [Array.prototype.sort]. *)
Definition compareNodes (direction : string) (a b : Node) : Q :=
  if includes direction "right" then x b - x a
  else if includes direction "left" then x a - x b
  else if includes direction "bottom" then y b - y a
  else if includes direction "top" then y a - y b
  else 0.

(** [Array.prototype.sort] is stable (ECMAScript 2019): an element moves in
    front of another one only when the comparator is positive on the pair.
    It is modelled by a stable insertion sort. *)
Fixpoint insertSorted {A} (cmp : A -> A -> Q) (a : A) (l : list A) : list A :=
  match l with
  | [] => [a]
  | b :: l' => if Qleb (cmp a b) 0 then a :: b :: l' else b :: insertSorted cmp a l'
  end.

Definition sortBy {A} (cmp : A -> A -> Q) (l : list A) : list A :=
  foldr (insertSorted cmp) [] l.

Definition sortedSelection (σ : Scene) (direction : string)
    (selection : list NodeId) : list NodeId :=
  sortBy (fun a b => compareNodes direction (node σ a) (node σ b)) selection.

(** What [figma.notify] is called with; the text of the message is
    presentation and is kept as data. *)
Inductive Notification :=
  | PleaseSelect
  | FailedToDuplicate
  | SpacingByAutoLayout
  | DuplicatedWithGap (direction : string) (gap : Q).

(** Modelled from the spec: the host's [clone], a new node with a fresh
    identity, the geometry and flags of the source, not yet attached
    (section 6, "Clone").  The copies of the descendants play no part in a
    duplication and are left out. *)
Definition clone (n : NodeId) (σ : Scene) : Scene * NodeId :=
  (σ ++ [set_children [] (set_parent None (node σ n))], length σ).

(** Modelled from the spec: the host's [appendChild]. *)
Definition appendChild (p c : NodeId) (σ : Scene) : Scene :=
  alter (set_parent (Some p)) c
        (alter (fun q => set_children (children q ++ [c]) q) p σ).

(** Modelled from the spec: the host's [insertChild], which raises on an
    index outside the child list. *)
Definition insertChild (p : NodeId) (index : Z) (c : NodeId) (σ : Scene)
    : option Scene :=
  if decide (0 <= index <= Z.of_nat (length (children (node σ p))))%Z then
    let k := Z.to_nat index in
    Some (alter (set_parent (Some p)) c
           (alter (fun q => set_children
                     (take k (children q) ++ c :: drop k (children q)) q) p σ))
  else None.

(** [array.indexOf(n)], [-1] when absent. *)
Definition indexOf (n : NodeId) (l : list NodeId) : Z :=
  match list_find (fun m => m = n) l with
  | Some (k, _) => Z.of_nat k
  | None => (-1)%Z
  end.

Record Batch := mkBatch {
  scene : Scene;
  newSelection : list NodeId;
  processedIds : gset NodeId;
  autoLayoutWarning : bool;
  lastUsedEffectiveGap : Q;
  notifications : list Notification
}.

Definition isAutoLayout (p : Node) : bool :=
  match layoutMode p with
  | Some m => negb (String.eqb m "NONE")
  | None => false
  end.

Section Orchestrator.
(** The revision of [pushSiblings] in use. *)
Variable pushSiblings :
  Scene -> NodeId -> string -> Q -> Q -> gset NodeId -> Scene.

Variable direction : string.
Variable gap : option Q.
Variable pushEnabled : bool.

Definition effectiveGap (n : Node) : Q :=
  match gap with
  | Some g => g
  | None => if Qgtb (width n) 400 then 100 else 40
  end.

(** The free-form branch of the loop body. *)
Definition placeClone (n p : NodeId) (b : Batch) : Batch :=
  let σ := scene b in
  let g := effectiveGap (node σ n) in
  let shiftX := width (node σ n) + g in
  let shiftY := height (node σ n) + g in
  let σ1 := if pushEnabled
            then pushSiblings σ n direction shiftX shiftY (processedIds b)
            else σ in
  let '(σ2, c) := clone n σ1 in
  let σ3 := appendChild p c σ2 in
  let σ4 := alter (set_x (shiftH direction shiftX (x (node σ3 n)))) c σ3 in
  let σ5 := alter (set_y (shiftV direction shiftY (y (node σ4 n)))) c σ4 in
  mkBatch (expandSectionIfNeeded c σ5) (newSelection b ++ [c])
          ({[c]} ∪ processedIds b) (autoLayoutWarning b) g (notifications b).

(** The auto layout branch of the loop body. *)
Definition insertClone (n p : NodeId) (b : Batch) : Batch :=
  let σ := scene b in
  let g := effectiveGap (node σ n) in
  let '(σ1, c) := clone n σ in
  let index := indexOf n (children (node σ1 p)) in
  let newIndex :=
    (index + (if includes direction "right" || includes direction "bottom"
              then 1 else 0))%Z in
  match insertChild p newIndex c σ1 with
  | Some σ2 =>
      mkBatch σ2 (newSelection b ++ [c]) (processedIds b) true g
              (notifications b)
  | None =>
      mkBatch σ1 (newSelection b) (processedIds b) (autoLayoutWarning b) g
              (notifications b ++ [FailedToDuplicate])
  end.

(** Body of [for (const node of sortedSelection)]. *)
Definition processNode (b : Batch) (n : NodeId) : Batch :=
  match parent (node (scene b) n) with
  | None => b
  | Some p =>
      if isAutoLayout (node (scene b) p) then insertClone n p b
      else placeClone n p b
  end.

Definition summary (b : Batch) : list Notification :=
  match newSelection b with
  | [] => []
  | _ :: _ =>
      if autoLayoutWarning b then [SpacingByAutoLayout]
      else [DuplicatedWithGap direction (lastUsedEffectiveGap b)]
  end.

Definition performDuplicate (σ : Scene) (selection : list NodeId) : Batch :=
  match selection with
  | [] => mkBatch σ [] ∅ false 40 [PleaseSelect]
  | _ :: _ =>
      let b := foldl processNode
                     (mkBatch σ [] (list_to_set selection) false 40 [])
                     (sortedSelection σ direction selection) in
      mkBatch (scene b) (newSelection b) (processedIds b)
              (autoLayoutWarning b) (lastUsedEffectiveGap b)
              (notifications b ++ summary b)
  end.
End Orchestrator.

(** ** Processing order, as predicates on the sorted selection *)

Definition descendingBy (f : Node -> Q) (σ : Scene) (l : list NodeId) : Prop :=
  Sorted (fun a b => f (node σ b) <= f (node σ a)) l.

Definition ascendingBy (f : Node -> Q) (σ : Scene) (l : list NodeId) : Prop :=
  Sorted (fun a b => f (node σ a) <= f (node σ b)) l.

(** The four orderings read as independent rules, one per direction token. *)
Definition ordered_per_token (σ : Scene) (direction : string)
    (selection : list NodeId) : Prop :=
  let l := sortedSelection σ direction selection in
  (includes direction "right" = true -> descendingBy x σ l)
  /\ (includes direction "left" = true -> ascendingBy x σ l)
  /\ (includes direction "bottom" = true -> descendingBy y σ l)
  /\ (includes direction "top" = true -> ascendingBy y σ l).

(** ** The siblings a call has to push, and the traversal invariant *)

Section Pushed.
Variable σ : Scene.
Variable direction : string.
Variables shiftX shiftY : Q.
Variable siblings : list NodeId.
Variable excluded : gset NodeId.
Variable target : Bfs.Rect.

(** The least set of siblings closed under "overlaps the target rectangle"
    and "overlaps the future rectangle of a pushed sibling". *)
Inductive Pushed : NodeId -> Prop :=
  | pushed_by_target s :
      s ∈ siblings -> s ∉ excluded ->
      Bfs.overlaps (node σ s) target = true ->
      Pushed s
  | pushed_by_sibling b s :
      Pushed b ->
      s ∈ siblings -> s ∉ excluded ->
      Bfs.overlaps (node σ s)
        (Bfs.futureRect direction shiftX shiftY (node σ b)) = true ->
      Pushed s.

(** Where a rectangle of the queue comes from. *)
Definition caused (r : Bfs.Rect) : Prop :=
  r = target
  \/ exists b, Pushed b /\ r = Bfs.futureRect direction shiftX shiftY (node σ b).

Record Inv (st : Bfs.State) : Prop := {
  inv_processed : forall i,
    i ∈ Bfs.processed st <-> i ∈ excluded \/ i ∈ Bfs.nodesToMove st;
  inv_nodup : NoDup (Bfs.nodesToMove st);
  inv_pushed : forall i, i ∈ Bfs.nodesToMove st -> Pushed i;
  inv_queue : forall r, r ∈ Bfs.checkQueue st -> caused r
}.

(** The state a visit leaves when the sibling is collected. *)
Definition collected (st : Bfs.State) (s : NodeId) : Bfs.State :=
  Bfs.mkState (Bfs.set_add s (Bfs.nodesToMove st))
              ({[s]} ∪ Bfs.processed st)
              (Bfs.checkQueue st
                 ++ [Bfs.futureRect direction shiftX shiftY (node σ s)]).

(** The state once the head of the queue has been taken off. *)
Definition pop (st : Bfs.State) (rest : list Bfs.Rect) : Bfs.State :=
  Bfs.mkState (Bfs.nodesToMove st) (Bfs.processed st) rest.

(** Every sibling that overlaps [r] has been processed in [st]. *)
Definition handled (st : Bfs.State) (r : Bfs.Rect) : Prop :=
  forall s, s ∈ siblings -> Bfs.overlaps (node σ s) r = true ->
            s ∈ Bfs.processed st.

(** Siblings that a later scan may still collect. *)
Definition pendingCount (st : Bfs.State) : nat :=
  length (filter (fun s => s ∉ Bfs.processed st) siblings).

Definition measure (st : Bfs.State) : nat :=
  (length (Bfs.checkQueue st) + pendingCount st)%nat.
End Pushed.

(** ** The claims on collision propagation, read to the letter *)

(** A sibling [C] that overlaps the shifted rectangle of a sibling [B] which
    overlaps the target rectangle is moved by the shift, whatever [B] is. *)
Definition chain_pushed (σ : Scene) (o p : NodeId) (direction : string)
    (shiftX shiftY : Q) (excluded : gset NodeId) (B C : NodeId) : Prop :=
  parent (node σ o) = Some p ->
  B ∈ children (node σ p) -> C ∈ children (node σ p) ->
  C ∉ excluded -> C <> B ->
  Bfs.overlaps (node σ B) (Bfs.targetRect direction shiftX shiftY (node σ o)) = true ->
  Bfs.overlaps (node σ C) (Bfs.futureRect direction shiftX shiftY (node σ B)) = true ->
  let σ' := Bfs.pushSiblings σ o direction shiftX shiftY excluded in
  x (node σ' C) = shiftH direction shiftX (x (node σ C))
  /\ y (node σ' C) = shiftV direction shiftY (y (node σ C)).

(** A sibling that does not overlap the target rectangle keeps its place. *)
Definition clear_of_target_stays (σ : Scene) (o p : NodeId) (direction : string)
    (shiftX shiftY : Q) (excluded : gset NodeId) (s : NodeId) : Prop :=
  parent (node σ o) = Some p ->
  s ∈ children (node σ p) ->
  Bfs.overlaps (node σ s) (Bfs.targetRect direction shiftX shiftY (node σ o)) = false ->
  let σ' := Bfs.pushSiblings σ o direction shiftX shiftY excluded in
  x (node σ' s) = x (node σ s) /\ y (node σ' s) = y (node σ s).

(** ** What a duplication leaves alone along one axis *)

(** The guard of [expandSectionIfNeeded] on the parent. *)
Definition adaptsContainer (p : Node) : bool :=
  String.eqb (type p) "SECTION" && negb (locked p).

(** Container adaptation has nothing to do for the selection: every
    selected node is in the scene and its parent, if any, is not an
    unlocked section. *)
Definition free_of_sections (σ : Scene) (selection : list NodeId) : Prop :=
  forall n, n ∈ selection ->
    (n < length σ)%nat
    /\ forall p, parent (node σ n) = Some p ->
         (p < length σ)%nat /\ adaptsContainer (node σ p) = false.

(** The coordinate [f] of every node of [σ] is the same in the batch, and
    every created node has the coordinate [f] of a selected node. *)
Definition axis_frame (f : Node -> Q) (σ : Scene) (selection : list NodeId)
    (b : Batch) : Prop :=
  (forall i, (i < length σ)%nat -> f (node (scene b) i) = f (node σ i))
  /\ (forall c, c ∈ newSelection b ->
        exists n, n ∈ selection /\ f (node (scene b) c) = f (node σ n)).

(** The claim on direction decomposition read to the letter: nothing at all
    changes along an axis the direction has no token for. *)
Definition axis_untouched (σ : Scene) (selection : list NodeId)
    (direction : string) (gap : option Q) (pushEnabled : bool) : Prop :=
  let b := performDuplicate Bfs.pushSiblings direction gap pushEnabled σ selection in
  (includes direction "left" = false -> includes direction "right" = false ->
   forall i, (i < length σ)%nat -> x (node (scene b) i) = x (node σ i))
  /\ (includes direction "top" = false -> includes direction "bottom" = false ->
      forall i, (i < length σ)%nat -> y (node (scene b) i) = y (node σ i)).

(** What the orchestrator never changes on an existing node when the
    direction has no token for the axis of [f]. *)
Definition kept (f : Node -> Q) (n : Node)
    : Q * string * bool * option NodeId :=
  (f n, type n, locked n, parent n).

Definition Ext (f : Node -> Q) (σ σ' : Scene) : Prop :=
  (length σ <= length σ')%nat
  /\ forall i, (i < length σ)%nat -> kept f (node σ' i) = kept f (node σ i).

(** ** What collision propagation and the orchestrator leave alone *)

(** Everything of a node but its position. *)
Definition shape (n : Node)
    : Q * Q * bool * string * option string * option NodeId * list NodeId :=
  (width n, height n, locked n, type n, layoutMode n, parent n, children n).

(** ** Container adaptation on a well-formed section *)

(** [n] is a child of the unlocked section [p], in a scene that is a tree
    around [p]: the children of [p] are distinct and [p] is not among
    them. *)
Definition section_child (σ : Scene) (n p : NodeId) : Prop :=
  parent (node σ n) = Some p
  /\ type (node σ p) = "SECTION" /\ locked (node σ p) = false
  /\ (p < length σ)%nat /\ (n < length σ)%nat
  /\ NoDup (children (node σ p))
  /\ (p ∉ children (node σ p)) /\ n ∈ children (node σ p).

(** What no step of the adaptation changes on any node. *)
Definition links (n : Node)
    : bool * string * option string * option NodeId * list NodeId :=
  (locked n, type n, layoutMode n, parent n, children n).

(** ** Duplication under free-form parents *)

(** Every selected node is in the scene and its parent, if any, is in the
    scene and is neither an auto layout container nor an unlocked
    section. *)
Definition free_form (σ : Scene) (selection : list NodeId) : Prop :=
  forall n, n ∈ selection ->
    (n < length σ)%nat
    /\ forall p, parent (node σ n) = Some p ->
         (p < length σ)%nat
         /\ adaptsContainer (node σ p) = false
         /\ isAutoLayout (node σ p) = false.

(** The node a free-form duplication of [n] under [p] creates. *)
Definition placed (direction : string) (gap : option Q) (n : Node) (p : NodeId)
    : Node :=
  let g := effectiveGap gap n in
  mkNode (shiftH direction (width n + g) (x n))
         (shiftV direction (height n + g) (y n))
         (width n) (height n) (locked n) (type n) (layoutMode n) (Some p) [].

(** Everything of a node but its position and its child list. *)
Definition rigid (n : Node)
    : Q * Q * bool * string * option string * option NodeId :=
  (width n, height n, locked n, type n, layoutMode n, parent n).

Definition hasParent (σ : Scene) (n : NodeId) : bool :=
  match parent (node σ n) with Some _ => true | None => false end.

(** What holds of the batch after any number of iterations of the loop of
    [performDuplicate], started on [σ] with [selection]. *)
Record BatchInv (direction : string) (gap : option Q) (pushEnabled : bool)
    (σ : Scene) (selection : list NodeId) (b : Batch) : Prop := {
  bi_length : length (scene b) = (length σ + length (newSelection b))%nat;
  bi_fresh : newSelection b = seq (length σ) (length (newSelection b));
  bi_rigid : forall i, (i < length σ)%nat ->
    rigid (node (scene b) i) = rigid (node σ i);
  bi_selected : forall i, i ∈ selection ->
    i ∈ processedIds b
    /\ x (node (scene b) i) = x (node σ i)
    /\ y (node (scene b) i) = y (node σ i);
  bi_still : pushEnabled = false -> forall i, (i < length σ)%nat ->
    x (node (scene b) i) = x (node σ i) /\ y (node (scene b) i) = y (node σ i);
  bi_clones : forall c, c ∈ newSelection b ->
    c ∈ processedIds b
    /\ exists n p, n ∈ selection /\ parent (node σ n) = Some p
         /\ node (scene b) c = placed direction gap (node σ n) p
}.

(** One fresh node per selected node that has a parent, each the [placed]
    copy of a selected node. *)
Definition clones_placed (direction : string) (gap : option Q) (σ : Scene)
    (selection : list NodeId) (b : Batch) : Prop :=
  newSelection b
  = seq (length σ) (length (filter (fun n => hasParent σ n = true) selection))
  /\ length (scene b) = (length σ + length (newSelection b))%nat
  /\ forall c, c ∈ newSelection b ->
       exists n p, n ∈ selection /\ parent (node σ n) = Some p
         /\ node (scene b) c = placed direction gap (node σ n) p.

(** The node [i] has kept its position, its size, its flags and its
    parent. *)
Definition untouched (σ : Scene) (b : Batch) (i : NodeId) : Prop :=
  x (node (scene b) i) = x (node σ i)
  /\ y (node (scene b) i) = y (node σ i)
  /\ rigid (node (scene b) i) = rigid (node σ i).

(** ** The plugin around the orchestrator *)

(** [figma.clientStorage] with its three keys ['autoDetect'],
    ['lastUsedGap'] and ['pushEnabled']; [None] is a key never written,
    read as [undefined].  Writes are taken in the order of the calls. *)
Record Storage := mkStorage {
  autoDetectKey : option bool;
  lastUsedGapKey : option Q;
  pushEnabledKey : option bool
}.

(** What the plugin posts to the panel. *)
Inductive UiMessage :=
  | LoadSettings (gap : Q) (autoDetect push : bool)
  | UpdateGap (gap : Q).

(** What the panel posts to the plugin, by [msg.type]. *)
Inductive PanelMessage :=
  | Resize (w h : Q)
  | ToggleAutoDetect (enabled : bool)
  | TogglePush (enabled : bool)
  | Duplicate (direction : string) (gap : Q) (autoDetect push : bool).

Record Plugin := mkPlugin {
  isAutoDetectEnabled : bool;
  isPushEnabled : bool;
  clientStorage : Storage;
  page : Scene;
  pageSelection : list NodeId;
  posted : list UiMessage;
  notified : list Notification;
  uiSize : option (Z * Z);
  closed : bool
}.

(** A run of the plugin starts with both flags on. *)
Definition launch (storage : Storage) (σ : Scene) (selection : list NodeId)
    : Plugin :=
  mkPlugin true true storage σ selection [] [] None false.

Definition selectedNodes (st : Plugin) : option (list Node) :=
  Some (map (node (page st)) (pageSelection st)).

Section Plugin.
(** The revision: its [pushSiblings], and whether [performDuplicate] hands
    the created nodes to the page selection. *)
Variable pushSiblings :
  Scene -> NodeId -> string -> Q -> Q -> gset NodeId -> Scene.
Variable reselect : bool.

(** The call [performDuplicate(direction, gap, pushEnabled)]. *)
Definition runDuplicate (direction : string) (gap : option Q)
    (pushEnabled : bool) (st : Plugin) : Plugin :=
  let b := performDuplicate pushSiblings direction gap pushEnabled
             (page st) (pageSelection st) in
  mkPlugin (isAutoDetectEnabled st) (isPushEnabled st) (clientStorage st)
    (scene b)
    (match newSelection b with
     | [] => pageSelection st
     | _ :: _ => if reselect then newSelection b else pageSelection st
     end)
    (posted st) (notified st ++ notifications b) (uiSize st) (closed st).

(** [figma.ui.onmessage]. *)
Definition onMessage (st : Plugin) (msg : PanelMessage) : Plugin :=
  match msg with
  | Resize w h =>
      mkPlugin (isAutoDetectEnabled st) (isPushEnabled st) (clientStorage st)
        (page st) (pageSelection st) (posted st) (notified st)
        (Some (Qceiling w, Qceiling h)) (closed st)
  | ToggleAutoDetect enabled =>
      mkPlugin enabled (isPushEnabled st)
        (mkStorage (Some enabled) (lastUsedGapKey (clientStorage st))
                   (pushEnabledKey (clientStorage st)))
        (page st) (pageSelection st)
        (if enabled
         then posted st ++ [UpdateGap (getDetectedGap (selectedNodes st))]
         else posted st)
        (notified st) (uiSize st) (closed st)
  | TogglePush enabled =>
      mkPlugin (isAutoDetectEnabled st) enabled
        (mkStorage (autoDetectKey (clientStorage st))
                   (lastUsedGapKey (clientStorage st)) (Some enabled))
        (page st) (pageSelection st) (posted st) (notified st) (uiSize st)
        (closed st)
  | Duplicate direction gap autoDetect push =>
      runDuplicate direction (if autoDetect then None else Some gap) push
        (mkPlugin autoDetect push
           (mkStorage (Some autoDetect) (Some gap) (Some push))
           (page st) (pageSelection st) (posted st) (notified st) (uiSize st)
           (closed st))
  end.

(** [figma.on("selectionchange", ...)], with the new selection. *)
Definition onSelectionChange (st : Plugin) (selection : list NodeId) : Plugin :=
  let st' :=
    mkPlugin (isAutoDetectEnabled st) (isPushEnabled st) (clientStorage st)
      (page st) selection (posted st) (notified st) (uiSize st) (closed st) in
  if isAutoDetectEnabled st then
    mkPlugin (isAutoDetectEnabled st) (isPushEnabled st) (clientStorage st)
      (page st) selection
      (posted st ++ [UpdateGap (getDetectedGap (selectedNodes st'))])
      (notified st) (uiSize st) (closed st)
  else st'.

(** The top level of the script, for [figma.command]. *)
Definition start (command : string) (st : Plugin) : Plugin :=
  let storage := clientStorage st in
  if String.eqb command "open_ui" || String.eqb command "" then
    let initialGap := getDetectedGap (selectedNodes st) in
    let autoDetect := default (isAutoDetectEnabled st) (autoDetectKey storage) in
    let push := default (isPushEnabled st) (pushEnabledKey storage) in
    mkPlugin autoDetect push storage (page st) (pageSelection st)
      (posted st
         ++ [LoadSettings (default initialGap (lastUsedGapKey storage))
               autoDetect push])
      (notified st) (Some (240%Z, 380%Z)) (closed st)
  else
    let autoDetect := default true (autoDetectKey storage) in
    let push := default true (pushEnabledKey storage) in
    let finalGap :=
      if autoDetect then None else Some (default 40 (lastUsedGapKey storage)) in
    let st' := runDuplicate command finalGap push st in
    mkPlugin (isAutoDetectEnabled st') (isPushEnabled st') (clientStorage st')
      (page st') (pageSelection st') (posted st') (notified st') (uiSize st')
      true.

(** What the host sends while the panel is open. *)
Inductive Event :=
  | Message (msg : PanelMessage)
  | SelectionChange (selection : list NodeId).

Definition handle (st : Plugin) (e : Event) : Plugin :=
  match e with
  | Message msg => onMessage st msg
  | SelectionChange selection => onSelectionChange st selection
  end.
End Plugin.

(** The flags in memory agree with what a later run would read from the
    storage. *)
Definition mirrors (st : Plugin) : Prop :=
  isAutoDetectEnabled st = default true (autoDetectKey (clientStorage st))
  /\ isPushEnabled st = default true (pushEnabledKey (clientStorage st)).

(** ** Sample scenes *)

Definition frame (vx vy w h : Q) (p : option NodeId) (cs : list NodeId) : Node :=
  mkNode vx vy w h false "FRAME" None p cs.

Definition section (vx vy w h : Q) (cs : list NodeId) : Node :=
  mkNode vx vy w h false "SECTION" None None cs.

(** A alone on the page. *)
Definition scene1 : Scene :=
  [ frame 0 0 1000 1000 None [1%nat];
    frame 0 0 100 100 (Some 0%nat) [] ].

(** The page with frames A (x = 0) and B (x = 140), both 100 wide. *)
Definition scene2 : Scene :=
  [ frame 0 0 1000 1000 None [1%nat; 2%nat];
    frame 0 0 100 100 (Some 0%nat) [];
    frame 140 0 100 100 (Some 0%nat) [] ].

(** A low frame on the left and a high frame on the right. *)
Definition sceneDiagonal : Scene :=
  [ frame 0 0 1000 1000 None [1%nat; 2%nat];
    frame 0 100 50 50 (Some 0%nat) [];
    frame 10 0 50 50 (Some 0%nat) [] ].

(** A row of three frames: A at 0, B at 200, C at 400. *)
Definition sceneRow : Scene :=
  [ frame 0 0 1000 1000 None [1%nat; 2%nat; 3%nat];
    frame 0 0 100 100 (Some 0%nat) [];
    frame 200 0 100 100 (Some 0%nat) [];
    frame 400 0 100 100 (Some 0%nat) [] ].

(** A at 0, B at 150, and C at 240, flush with the right edge of the
    rectangle [140, 240) that a duplicate of A takes. *)
Definition sceneTouching : Scene :=
  [ frame 0 0 1000 1000 None [1%nat; 2%nat; 3%nat];
    frame 0 0 100 100 (Some 0%nat) [];
    frame 150 0 100 100 (Some 0%nat) [];
    frame 240 0 100 100 (Some 0%nat) [] ].

(** A frame that touches the target rectangle [140, 240) from the right and
    is alone with the original. *)
Definition sceneAdjacent : Scene :=
  [ frame 0 0 1000 1000 None [1%nat; 2%nat];
    frame 0 0 100 100 (Some 0%nat) [];
    frame 240 0 100 100 (Some 0%nat) [] ].

(** The scene [sceneTouching] with B and C locked. *)
Definition sceneRowLocked : Scene :=
  alter (set_locked true) 3%nat (alter (set_locked true) 2%nat sceneTouching).

(** A, a frame B flush with A's right edge, and a frame C lower down that
    overlaps the place B is pushed to but shares no row with A. *)
Definition sceneCorridor : Scene :=
  [ frame 0 0 1000 1000 None [1%nat; 2%nat; 3%nat];
    frame 0 0 100 100 (Some 0%nat) [];
    frame 100 50 100 100 (Some 0%nat) [];
    frame 250 120 100 100 (Some 0%nat) [] ].

(** An unlocked section with one frame 10 units from its left edge. *)
Definition sceneSectionEdge : Scene :=
  [ section 0 0 500 500 [1%nat];
    frame 10 200 100 100 (Some 0%nat) [] ].

(** An unlocked section at [x = 1000] with a frame sticking out by 10 on the
    left, a locked frame and a third frame. *)
Definition sceneSectionLeft : Scene :=
  [ section 1000 0 500 500 [1%nat; 2%nat; 3%nat];
    frame (-10) 100 100 100 (Some 0%nat) [];
    set_locked true (frame 200 100 100 100 (Some 0%nat) []);
    frame 300 100 100 100 (Some 0%nat) [] ].

(** A vertical auto layout frame with three children. *)
Definition sceneAutoLayout : Scene :=
  [ mkNode 0 0 300 600 false "FRAME" (Some "VERTICAL") None
      [1%nat; 2%nat; 3%nat];
    frame 0 0 100 100 (Some 0%nat) [];
    frame 0 110 100 100 (Some 0%nat) [];
    frame 0 220 100 100 (Some 0%nat) [] ].

(** * Properties *)

(** ** Numbers and scenes *)

Lemma Qltb_lt a b : Qltb a b = true <-> a < b.
Proof.
  unfold Qltb. rewrite Qlt_alt. destruct (a ?= b); split; congruence.
Qed.

Lemma Qltb_ge a b : Qltb a b = false <-> b <= a.
Proof.
  rewrite <- not_true_iff_false, Qltb_lt. split.
  - apply Qnot_lt_le.
  - apply Qle_not_lt.
Qed.

Lemma Qleb_le a b : Qleb a b = true <-> a <= b.
Proof. unfold Qleb. rewrite negb_true_iff. apply Qltb_ge. Qed.

Lemma Qleb_gt a b : Qleb a b = false <-> b < a.
Proof. unfold Qleb. rewrite negb_false_iff. apply Qltb_lt. Qed.

(** Adding the rational [0] gives back the very same fraction. *)
Lemma Qplus_0_r_eq (q : Q) : q + 0 = q.
Proof.
  destruct q as [n d]. unfold Qplus. simpl.
  rewrite Z.mul_1_r, Z.add_0_r, Pos.mul_1_r. reflexivity.
Qed.

Lemma node_alter (f : Node -> Node) (σ : Scene) (i j : nat) :
  node (alter f i σ) j =
  if decide (i = j /\ (i < length σ)%nat) then f (node σ i) else node σ j.
Proof. unfold node. rewrite list_lookup_total_alter. reflexivity. Qed.

Lemma node_alter_ne (f : Node -> Node) (σ : Scene) (i j : nat) :
  i <> j -> node (alter f i σ) j = node σ j.
Proof. intros. unfold node. by rewrite list_lookup_total_alter_ne. Qed.

Lemma node_alter_eq (f : Node -> Node) (σ : Scene) (i : nat) :
  (i < length σ)%nat -> node (alter f i σ) i = f (node σ i).
Proof. intros. unfold node. by rewrite list_lookup_total_alter_eq. Qed.

(** ** Gap policy *)

(** C6: [getDetectedGap] is 40 on an empty selection; on a non-empty one it
    looks at the width of the first element only, and is 100 when that width
    exceeds 400 and 40 otherwise. *)
Theorem getDetectedGap_spec :
  getDetectedGap None = 40
  /\ getDetectedGap (Some []) = 40
  /\ (forall first rest, 400 < width first ->
        getDetectedGap (Some (first :: rest)) = 100)
  /\ (forall first rest, width first <= 400 ->
        getDetectedGap (Some (first :: rest)) = 40)
  /\ (forall first rest rest',
        getDetectedGap (Some (first :: rest)) = getDetectedGap (Some (first :: rest'))).
Proof.
  repeat split; try reflexivity; intros first rest H; simpl; unfold Qgtb.
  - apply Qltb_lt in H. by rewrite H.
  - apply Qltb_ge in H. by rewrite H.
Qed.

Lemma getDetectedGap_spec_witness :
  getDetectedGap (Some [frame 0 0 401 10 None []; frame 0 0 10 10 None []]) = 100
  /\ getDetectedGap (Some [frame 0 0 400 10 None []; frame 0 0 900 10 None []]) = 40.
Proof.
  destruct getDetectedGap_spec as (_ & _ & Hwide & Hnarrow & _).
  split; [apply Hwide | apply Hnarrow]; simpl; [reflexivity | discriminate].
Defined.

(** ** Empty selection *)

(** C9: on an empty selection [performDuplicate] returns normally, leaves the
    scene as it was, creates nothing and only notifies that something has to
    be selected. *)
Theorem performDuplicate_empty push direction gap pushEnabled (σ : Scene) :
  let b := performDuplicate push direction gap pushEnabled σ [] in
  scene b = σ /\ newSelection b = [] /\ notifications b = [PleaseSelect].
Proof. repeat split. Qed.

(** ** Processing order *)

Section InsertionSort.
Context {A : Type} (cmp : A -> A -> Q).

Let before (a b : A) : Prop := cmp a b <= 0.

Hypothesis cmp_total : forall a b, 0 < cmp a b -> cmp b a <= 0.

Lemma insertSorted_perm a l : insertSorted cmp a l ≡ₚ a :: l.
Proof.
  induction l as [|b l IH]; simpl; [done|].
  destruct (Qleb (cmp a b) 0); [done|].
  rewrite IH. apply perm_swap.
Qed.

Lemma sortBy_perm l : sortBy cmp l ≡ₚ l.
Proof.
  induction l as [|a l IH]; simpl; [done|].
  rewrite insertSorted_perm. by rewrite IH.
Qed.

Lemma insertSorted_hd a b l :
  before b a -> HdRel before b l -> HdRel before b (insertSorted cmp a l).
Proof.
  intros Hba Hl. destruct l as [|c l]; simpl; [by constructor|].
  destruct (Qleb (cmp a c) 0); constructor; [done|].
  by inversion Hl.
Qed.

Lemma insertSorted_sorted a l :
  Sorted before l -> Sorted before (insertSorted cmp a l).
Proof.
  induction 1 as [|b l Hs IH Hhd]; simpl.
  - repeat constructor.
  - destruct (Qleb (cmp a b) 0) eqn:Hab.
    + apply Qleb_le in Hab. repeat constructor; done.
    + apply Qleb_gt in Hab. constructor; [done|].
      apply insertSorted_hd; [|done]. by apply cmp_total.
Qed.

Lemma sortBy_sorted l : Sorted before (sortBy cmp l).
Proof.
  induction l as [|a l IH]; simpl; [constructor|].
  by apply insertSorted_sorted.
Qed.
End InsertionSort.

(** A comparator that is constantly zero leaves the array as it is. *)
Lemma sortBy_zero {A} (cmp : A -> A -> Q) (l : list A) :
  (forall a b, cmp a b = 0) -> sortBy cmp l = l.
Proof.
  intros Hz. induction l as [|a l IH]; simpl; [done|].
  rewrite IH. destruct l as [|b l]; simpl; [done|].
  by rewrite Hz.
Qed.

Lemma Sorted_weaken {A} (R R' : A -> A -> Prop) (l : list A) :
  (forall a b, R a b -> R' a b) -> Sorted R l -> Sorted R' l.
Proof.
  intros HR. induction 1 as [|a l Hs IH Hhd]; constructor; [done|].
  destruct Hhd; constructor; auto.
Qed.

Lemma sortedSelection_by (f : Node -> Q) σ direction selection :
  (forall a b, compareNodes direction a b == f a - f b) ->
  Sorted (fun a b => f (node σ a) <= f (node σ b))
         (sortedSelection σ direction selection).
Proof.
  intros Hcmp. unfold sortedSelection.
  eapply Sorted_weaken; [|apply sortBy_sorted].
  - intros a b. simpl. rewrite Hcmp. lra.
  - intros a b. simpl. rewrite !Hcmp. lra.
Qed.




(** ** Breadth-first traversal: invariants *)

Lemma set_add_new (s : nat) (l : list nat) : s ∉ l -> Bfs.set_add s l = l ++ [s].
Proof. intros. unfold Bfs.set_add. by rewrite decide_False. Qed.

Lemma elem_of_set_add (s i : nat) (l : list nat) :
  i ∈ Bfs.set_add s l <-> i ∈ l \/ i = s.
Proof.
  unfold Bfs.set_add. case_decide.
  - split; [auto|]. intros [?| ->]; done.
  - rewrite elem_of_app, list_elem_of_singleton. done.
Qed.

Section TraversalFacts.
Variable σ : Scene.
Variable direction : string.
Variables shiftX shiftY : Q.
Variable siblings : list NodeId.
Variable excluded : gset NodeId.
Variable target : Bfs.Rect.

Let visit := Bfs.visit σ direction shiftX shiftY.
Let loop := Bfs.loop σ direction shiftX shiftY.
Let future (s : NodeId) := Bfs.futureRect direction shiftX shiftY (node σ s).
Let hits (s : NodeId) (r : Bfs.Rect) := Bfs.overlaps (node σ s) r = true.
Let Pushed := Pushed σ direction shiftX shiftY siblings excluded target.
Let caused := caused σ direction shiftX shiftY siblings excluded target.
Let Inv := Inv σ direction shiftX shiftY siblings excluded target.
Let collected := collected σ direction shiftX shiftY.
Let handled := handled σ siblings.

Lemma visit_cases r st s :
  (visit r st s = st /\ (s ∈ Bfs.processed st \/ ~ hits s r))
  \/ (visit r st s = collected st s /\ (s ∉ Bfs.processed st) /\ hits s r).
Proof.
  unfold visit, Bfs.visit, hits. case_decide; [left; auto|].
  destruct (Bfs.overlaps (node σ s) r) eqn:Ho; [right; auto|left].
  split; [done|]. right. congruence.
Qed.

Lemma visit_mono r st s :
  Bfs.processed st ⊆ Bfs.processed (visit r st s)
  /\ (forall i, i ∈ Bfs.nodesToMove st -> i ∈ Bfs.nodesToMove (visit r st s))
  /\ (forall q, q ∈ Bfs.checkQueue st -> q ∈ Bfs.checkQueue (visit r st s)).
Proof.
  destruct (visit_cases r st s) as [[-> _]|[-> _]]; [done|]. simpl.
  split; [apply union_subseteq_r|]. split.
  - intros i Hi. apply elem_of_set_add. by left.
  - intros q Hq. apply elem_of_app. by left.
Qed.

Lemma visit_inv r st s :
  Inv st -> s ∈ siblings -> caused r -> Inv (visit r st s).
Proof.
  intros HI Hs Hr.
  destruct (visit_cases r st s) as [[-> _]|(-> & Hnew & Hhit)]; [done|].
  assert (s ∉ Bfs.nodesToMove st) as Hnotin.
  { intros Hin. apply Hnew, (inv_processed _ _ _ _ _ _ _ _ HI). by right. }
  assert (s ∉ excluded) as Hnex.
  { intros Hin. apply Hnew, (inv_processed _ _ _ _ _ _ _ _ HI). by left. }
  split; simpl.
  - intros i. rewrite elem_of_union, elem_of_singleton, elem_of_set_add.
    rewrite (inv_processed _ _ _ _ _ _ _ _ HI). tauto.
  - rewrite set_add_new by done. apply NoDup_app. split; [apply HI|].
    split; [|apply NoDup_singleton].
    intros i Hi ->%list_elem_of_singleton. done.
  - intros i [Hi| ->]%elem_of_set_add; [by apply HI|].
    destruct Hr as [->|(b & Hb & ->)].
    + by apply pushed_by_target.
    + by apply (pushed_by_sibling _ _ _ _ _ _ _ b).
  - intros q [Hq| ->%list_elem_of_singleton]%elem_of_app.
    + by apply HI.
    + right. exists s. split; [|done].
      destruct Hr as [->|(b & Hb & ->)].
      * by apply pushed_by_target.
      * by apply (pushed_by_sibling _ _ _ _ _ _ _ b).
Qed.

Lemma foldl_visit_mono r l st :
  Bfs.processed st ⊆ Bfs.processed (foldl (visit r) st l)
  /\ (forall i, i ∈ Bfs.nodesToMove st ->
                i ∈ Bfs.nodesToMove (foldl (visit r) st l))
  /\ (forall q, q ∈ Bfs.checkQueue st ->
                q ∈ Bfs.checkQueue (foldl (visit r) st l)).
Proof.
  revert st. induction l as [|a l IH]; intros st; simpl; [done|].
  destruct (visit_mono r st a) as (H1 & H2 & H3).
  destruct (IH (visit r st a)) as (H4 & H5 & H6).
  split; [by etrans|]. split; auto.
Qed.

Lemma foldl_visit_inv r l st :
  Inv st -> (forall s, s ∈ l -> s ∈ siblings) -> caused r ->
  Inv (foldl (visit r) st l).
Proof.
  revert st. induction l as [|a l IH]; intros st HI Hl Hr; simpl; [done|].
  apply IH; [|intros s Hs; apply Hl; by right|done].
  apply visit_inv; [done| |done]. apply Hl. by left.
Qed.

(** After a scan, whatever overlaps the rectangle has been processed. *)
Lemma foldl_visit_covers r l st s :
  s ∈ l -> hits s r -> s ∈ Bfs.processed (foldl (visit r) st l).
Proof.
  revert st. induction l as [|a l IH]; intros st Hs Hh; [by inversion Hs|].
  simpl. apply elem_of_cons in Hs as [->|Hs]; [|by apply IH].
  apply (foldl_visit_mono r l).
  destruct (visit_cases r st a) as [[-> [?|?]]|[-> _]]; [done|done|].
  simpl. apply elem_of_union. left. by apply elem_of_singleton.
Qed.

(** A sibling collected by a scan has its future rectangle in the queue. *)
Lemma foldl_visit_pending r l st i :
  i ∈ Bfs.nodesToMove (foldl (visit r) st l) ->
  i ∈ Bfs.nodesToMove st
  \/ future i ∈ Bfs.checkQueue (foldl (visit r) st l).
Proof.
  revert st. induction l as [|a l IH]; intros st Hi; simpl in *; [by left|].
  destruct (IH _ Hi) as [Hin|?]; [|by right].
  destruct (visit_cases r st a) as [[Heq _]|[Heq _]]; rewrite Heq in Hin.
  - by left.
  - simpl in Hin. apply elem_of_set_add in Hin as [?| ->]; [by left|].
    right. apply (foldl_visit_mono r l). rewrite Heq. simpl.
    apply elem_of_app. right. by left.
Qed.

Lemma loop_unfold fuel st :
  loop fuel siblings st =
  match Bfs.checkQueue st with
  | [] => Some st
  | r :: rest =>
      match fuel with
      | O => None
      | S fuel' => loop fuel' siblings (foldl (visit r) (pop st rest) siblings)
      end
  end.
Proof. destruct fuel; reflexivity. Qed.

Lemma pop_inv st r rest :
  Inv st -> Bfs.checkQueue st = r :: rest ->
  Inv (pop st rest) /\ caused r.
Proof.
  intros HI Hq. split.
  - split; try apply HI. intros q Hin.
    apply (inv_queue _ _ _ _ _ _ _ _ HI). rewrite Hq. by right.
  - apply (inv_queue _ _ _ _ _ _ _ _ HI). rewrite Hq. by left.
Qed.

Lemma loop_sound fuel st st' :
  loop fuel siblings st = Some st' -> Inv st ->
  Inv st'
  /\ Bfs.checkQueue st' = []
  /\ Bfs.processed st ⊆ Bfs.processed st'
  /\ (forall i, i ∈ Bfs.nodesToMove st -> i ∈ Bfs.nodesToMove st')
  /\ (forall r, r ∈ Bfs.checkQueue st -> handled st' r)
  /\ (forall i, i ∈ Bfs.nodesToMove st' ->
        i ∈ Bfs.nodesToMove st \/ handled st' (future i)).
Proof.
  revert st. induction fuel as [|fuel IH]; intros st; rewrite loop_unfold;
    destruct (Bfs.checkQueue st) as [|r rest] eqn:Hq; try discriminate.
  1,2: intros [= <-] HI; split_and!; auto; intros r Hr; by inversion Hr.
  intros Hrun HI.
  destruct (pop_inv st r rest HI Hq) as [HIp Hr].
  set (st1 := foldl (visit r) (pop st rest) siblings) in *.
  assert (Inv st1) as HI1 by (by apply foldl_visit_inv).
  destruct (foldl_visit_mono r siblings (pop st rest)) as (Hp & Hm & Hqm).
  destruct (IH st1 Hrun HI1) as (HI' & He & Hp' & Hm' & Hh & Hpend).
  split_and!; auto.
  - by etrans.
  - intros q [->|Hin]%elem_of_cons.
    + intros s Hs Hhit. apply Hp'. by apply foldl_visit_covers.
    + apply Hh, Hqm. done.
  - intros i Hi. destruct (Hpend i Hi) as [Hin|?]; [|by right].
    destruct (foldl_visit_pending r siblings (pop st rest) i Hin) as [?|Hf].
    + by left.
    + right. by apply Hh.
Qed.

(** *** Termination *)

Lemma filter_processed_le (P P' : gset nat) (l : list nat) :
  P ⊆ P' ->
  (length (filter (fun s => s ∉ P') l) <= length (filter (fun s => s ∉ P) l))%nat.
Proof.
  intros Hsub. induction l as [|a l IH]; [done|].
  rewrite !filter_cons. repeat case_decide; simpl; try lia.
  exfalso. auto.
Qed.

Lemma filter_processed_lt (P : gset nat) (s : nat) (l : list nat) :
  s ∈ l -> s ∉ P ->
  (length (filter (fun i => i ∉ {[s]} ∪ P) l)
   < length (filter (fun i => i ∉ P) l))%nat.
Proof.
  intros Hin Hs. induction l as [|a l IH]; [by inversion Hin|].
  assert (length (filter (fun i => i ∉ {[s]} ∪ P) l)
          <= length (filter (fun i => i ∉ P) l))%nat as Hle.
  { apply filter_processed_le. apply union_subseteq_r. }
  rewrite !filter_cons. destruct (decide (a = s)) as [->|Hne].
  - rewrite decide_False.
    + rewrite decide_True by done. simpl. lia.
    + intros Hn. apply Hn, elem_of_union. left. by apply elem_of_singleton.
  - apply elem_of_cons in Hin as [->|Hin]; [done|]. specialize (IH Hin).
    repeat case_decide; simpl; try lia.
    exfalso. match goal with H : _ ∉ _ ∪ _ |- _ => apply H end.
    apply elem_of_union. by right.
Qed.

Lemma visit_measure r st s :
  s ∈ siblings -> (measure siblings (visit r st s) <= measure siblings st)%nat.
Proof.
  intros Hs. destruct (visit_cases r st s) as [[-> _]|(-> & Hnew & _)]; [done|].
  unfold measure, pendingCount. simpl.
  rewrite length_app. simpl.
  pose proof (filter_processed_lt (Bfs.processed st) s siblings Hs Hnew).
  lia.
Qed.

Lemma foldl_visit_measure r l st :
  (forall s, s ∈ l -> s ∈ siblings) ->
  (measure siblings (foldl (visit r) st l) <= measure siblings st)%nat.
Proof.
  revert st. induction l as [|a l IH]; intros st Hl; simpl; [done|].
  etrans; [apply IH|apply visit_measure].
  - intros s Hs. apply Hl. by right.
  - apply Hl. by left.
Qed.

Lemma loop_terminates fuel st :
  (measure siblings st <= fuel)%nat -> is_Some (loop fuel siblings st).
Proof.
  revert st. induction fuel as [|fuel IH]; intros st Hm; rewrite loop_unfold;
    destruct (Bfs.checkQueue st) as [|r rest] eqn:Hq; try done.
  - unfold measure in Hm. rewrite Hq in Hm. simpl in Hm. lia.
  - apply IH. etrans; [apply foldl_visit_measure; auto|].
    unfold measure, pendingCount in *.
    rewrite Hq in Hm. simpl in *. lia.
Qed.

(** *** Counting the iterations *)

Lemma visit_balance r st s :
  Inv st ->
  (length (Bfs.nodesToMove (visit r st s)) + length (Bfs.checkQueue st)
   = length (Bfs.nodesToMove st) + length (Bfs.checkQueue (visit r st s)))%nat.
Proof.
  intros HI.
  destruct (visit_cases r st s) as [[-> _]|(-> & Hnew & _)]; [done|].
  simpl. rewrite set_add_new, !length_app; [simpl; lia|].
  intros Hin. apply Hnew, (inv_processed _ _ _ _ _ _ _ _ HI). by right.
Qed.

Lemma foldl_visit_balance r l st :
  Inv st -> (forall s, s ∈ l -> s ∈ siblings) -> caused r ->
  (length (Bfs.nodesToMove (foldl (visit r) st l)) + length (Bfs.checkQueue st)
   = length (Bfs.nodesToMove st)
     + length (Bfs.checkQueue (foldl (visit r) st l)))%nat.
Proof.
  revert st. induction l as [|a l IH]; intros st HI Hl Hr; simpl; [done|].
  pose proof (visit_balance r st a HI).
  assert (Inv (visit r st a)) as HI'.
  { apply visit_inv; [done| |done]. apply Hl. by left. }
  specialize (IH (visit r st a) HI'
                 (fun s Hs => Hl s (list_elem_of_further _ _ _ Hs)) Hr).
  lia.
Qed.

(** The number of iterations is the least fuel on which [loop] answers. *)
Lemma loop_count fuel st st' :
  loop fuel siblings st = Some st' -> Inv st ->
  exists n, (n <= fuel)%nat
    /\ loop n siblings st = Some st'
    /\ (forall m, (m < n)%nat -> loop m siblings st = None)
    /\ (n + length (Bfs.nodesToMove st)
        = length (Bfs.nodesToMove st') + length (Bfs.checkQueue st))%nat.
Proof.
  revert st. induction fuel as [|fuel IH]; intros st; rewrite loop_unfold;
    destruct (Bfs.checkQueue st) as [|r rest] eqn:Hq; try discriminate.
  1,2: intros [= <-] _; exists 0%nat; rewrite loop_unfold, Hq;
       split_and!; [lia|done|intros; lia|simpl; lia].
  intros Hrun HI.
  destruct (pop_inv st r rest HI Hq) as [HIp Hr].
  pose proof (foldl_visit_balance r siblings _ HIp (fun _ H => H) Hr) as Hb.
  set (st1 := foldl (visit r) (pop st rest) siblings) in *.
  assert (Inv st1) as HI1 by (by apply foldl_visit_inv).
  destruct (IH st1 Hrun HI1) as (n & Hn & Hrun' & Hleast & Hcount).
  exists (S n). split_and!.
  - lia.
  - rewrite loop_unfold, Hq. done.
  - intros [|m] Hm; rewrite loop_unfold, Hq; [done|]. apply Hleast. lia.
  - simpl in *. lia.
Qed.

(** *** The collected set is the closure *)

Lemma loop_complete fuel st st' :
  loop fuel siblings st = Some st' -> Inv st ->
  Bfs.nodesToMove st = [] -> target ∈ Bfs.checkQueue st ->
  forall s, Pushed s -> s ∈ Bfs.nodesToMove st'.
Proof.
  intros Hrun HI Hnil Htarget.
  destruct (loop_sound fuel st st' Hrun HI) as (HI' & _ & _ & _ & Hh & Hpend).
  assert (forall s, s ∈ siblings -> s ∉ excluded -> forall r,
            handled st' r -> hits s r -> s ∈ Bfs.nodesToMove st') as Hin.
  { intros s Hs Hnex r Hr Hhit. specialize (Hr s Hs Hhit).
    apply (inv_processed _ _ _ _ _ _ _ _ HI') in Hr as [?|?]; done. }
  induction 1 as [s Hs Hnex Hhit|b s Hb IH Hs Hnex Hhit].
  - apply (Hin s Hs Hnex target); [by apply Hh|done].
  - apply (Hin s Hs Hnex (future b)); [|done].
    destruct (Hpend b IH) as [Hb0|?]; [|done].
    rewrite Hnil in Hb0. by inversion Hb0.
Qed.
End TraversalFacts.

(** ** Collision propagation, breadth-first revision *)

Lemma shiftH_offset direction s v : shiftH direction s v = v + offsetH direction s.
Proof.
  unfold shiftH, offsetH. repeat case_match; try reflexivity.
  symmetry. apply Qplus_0_r_eq.
Qed.

Lemma shiftV_offset direction s v : shiftV direction s v = v + offsetV direction s.
Proof.
  unfold shiftV, offsetV. repeat case_match; try reflexivity.
  symmetry. apply Qplus_0_r_eq.
Qed.

(** The overlap test in arithmetic: strict on both sides of both axes, once
    the rectangle is shrunk by the margin. *)
Lemma overlaps_iff (n : Node) (r : Bfs.Rect) :
  Bfs.overlaps n r = true <->
  x n < Bfs.rx r + Bfs.rwidth r - 0.5
  /\ Bfs.rx r + 0.5 < x n + width n
  /\ y n < Bfs.ry r + Bfs.rheight r - 0.5
  /\ Bfs.ry r + 0.5 < y n + height n.
Proof.
  unfold Bfs.overlaps, Qgtb, Bfs.margin.
  rewrite !andb_true_iff, !Qltb_lt. tauto.
Qed.

(** The rectangle put in the queue is the one the sibling has after the move. *)
Lemma futureRect_moveNode direction shiftX shiftY n :
  Bfs.futureRect direction shiftX shiftY n =
  let n' := Bfs.moveNode direction shiftX shiftY n in
  Bfs.mkRect (x n') (y n') (width n') (height n').
Proof.
  unfold Bfs.futureRect. simpl. by rewrite shiftH_offset, shiftV_offset.
Qed.

Lemma applyMoves_cons direction shiftX shiftY a l (σ : Scene) :
  Bfs.applyMoves direction shiftX shiftY (a :: l) σ =
  Bfs.applyMoves direction shiftX shiftY l
    (alter (Bfs.moveNode direction shiftX shiftY) a σ).
Proof. reflexivity. Qed.

Lemma applyMoves_length direction shiftX shiftY l (σ : Scene) :
  length (Bfs.applyMoves direction shiftX shiftY l σ) = length σ.
Proof.
  revert σ. induction l as [|a l IH]; intros σ; [done|].
  rewrite applyMoves_cons, IH. apply length_alter.
Qed.

(** Every collected sibling is moved once, everything else is left alone. *)
Lemma applyMoves_node direction shiftX shiftY l (σ : Scene) i :
  NoDup l ->
  node (Bfs.applyMoves direction shiftX shiftY l σ) i =
  if decide (i ∈ l /\ (i < length σ)%nat)
  then Bfs.moveNode direction shiftX shiftY (node σ i)
  else node σ i.
Proof.
  revert σ. induction l as [|a l IH]; intros σ Hnd.
  - rewrite decide_False; [done|]. intros [H _]. by inversion H.
  - apply NoDup_cons in Hnd as [Ha Hnd].
    rewrite applyMoves_cons, IH by done.
    rewrite length_alter, node_alter.
    destruct (decide (a = i)) as [->|Hne].
    + rewrite (decide_False (P := i ∈ l /\ _)) by tauto.
      destruct (decide (i < length σ)%nat).
      * rewrite !decide_True; [done| |done]. split; [by left|done].
      * rewrite !decide_False; [done| |]; tauto.
    + rewrite (decide_False (P := a = i /\ _)) by tauto.
      apply decide_ext. rewrite elem_of_cons.
      split; intros [Hin Hlt]; (split; [|done]); [by right|].
      destruct Hin as [->|Hin]; done.
Qed.

Section PushFacts.
Variable σ : Scene.
Variables o p : NodeId.
Variable direction : string.
Variables shiftX shiftY : Q.
Variable excluded : gset NodeId.

Let siblings := children (node σ p).
Let target := Bfs.targetRect direction shiftX shiftY (node σ o).
Let init := Bfs.initState direction shiftX shiftY (node σ o) excluded.
Let Pushed := Pushed σ direction shiftX shiftY siblings excluded target.
Let σ' := Bfs.pushSiblings σ o direction shiftX shiftY excluded.

Lemma init_inv : Inv σ direction shiftX shiftY siblings excluded target init.
Proof.
  split; simpl.
  - intros i. split; [by left|]. intros [?|H]; [done|by inversion H].
  - constructor.
  - intros i H. by inversion H.
  - intros r ->%list_elem_of_singleton. by left.
Qed.

Lemma init_measure : (measure siblings init <= S (length siblings))%nat.
Proof.
  unfold measure, pendingCount. simpl.
  pose proof (length_filter (fun s => s ∉ excluded) siblings). lia.
Qed.

Lemma collect_terminates :
  is_Some (Bfs.collect σ o p direction shiftX shiftY excluded).
Proof. apply loop_terminates, init_measure. Qed.

Lemma collect_pushed st :
  Bfs.collect σ o p direction shiftX shiftY excluded = Some st ->
  NoDup (Bfs.nodesToMove st)
  /\ forall s, s ∈ Bfs.nodesToMove st <-> Pushed s.
Proof.
  intros Hrun.
  destruct (loop_sound _ _ _ _ _ excluded target _ _ _ Hrun init_inv)
    as (HI & _).
  split; [apply HI|]. intros s. split; [apply HI|].
  eapply loop_complete; [apply Hrun|apply init_inv|done|by left].
Qed.

Hypothesis Hparent : parent (node σ o) = Some p.

Lemma pushSiblings_collect :
  exists st, Bfs.collect σ o p direction shiftX shiftY excluded = Some st
    /\ σ' = Bfs.applyMoves direction shiftX shiftY (Bfs.nodesToMove st) σ.
Proof.
  destruct collect_terminates as [st Hst]. exists st. split; [done|].
  unfold σ', Bfs.pushSiblings. by rewrite Hparent, Hst.
Qed.

Lemma pushSiblings_pushed s :
  Pushed s -> (s < length σ)%nat ->
  node σ' s = Bfs.moveNode direction shiftX shiftY (node σ s).
Proof.
  intros Hs Hlt. destruct pushSiblings_collect as (st & Hst & ->).
  destruct (collect_pushed st Hst) as [Hnd Hiff].
  rewrite applyMoves_node, decide_True; [done| |done].
  split; [by apply Hiff|done].
Qed.

Lemma pushSiblings_not_pushed s : ~ Pushed s -> node σ' s = node σ s.
Proof.
  intros Hs. destruct pushSiblings_collect as (st & Hst & ->).
  destruct (collect_pushed st Hst) as [Hnd Hiff].
  rewrite applyMoves_node, decide_False; [done| |done].
  intros [Hin _]. by apply Hs, Hiff.
Qed.
End PushFacts.

Lemma Pushed_not_excluded σ direction shiftX shiftY siblings excluded target s :
  Pushed σ direction shiftX shiftY siblings excluded target s -> s ∉ excluded.
Proof. by destruct 1. Qed.

(** ** Collision propagation, corridor revision *)

Lemma corridor_visit_other direction shiftX shiftY excluded o (σ : Scene) s i :
  i <> s \/ s ∈ excluded ->
  node (Corridor.visit direction shiftX shiftY excluded o σ s) i = node σ i.
Proof.
  intros Hi. unfold Corridor.visit. case_decide; [done|]. cbv zeta.
  case_match; [|done]. apply node_alter_ne. destruct Hi; [auto|done].
Qed.

Lemma corridor_excluded direction shiftX shiftY excluded o l (σ : Scene) i :
  i ∈ excluded ->
  node (foldl (Corridor.visit direction shiftX shiftY excluded o) σ l) i
  = node σ i.
Proof.
  intros Hi. revert σ. induction l as [|a l IH]; intros σ; simpl; [done|].
  rewrite IH. apply corridor_visit_other.
  destruct (decide (i = a)) as [->|]; auto.
Qed.

(** ** The claims on collision propagation *)

(** Membership in a literal list, and absence from a literal set. *)
Ltac in_list :=
  cbn; repeat first [apply list_elem_of_here | apply list_elem_of_further].

Ltac not_in_set :=
  let H := fresh in
  intros H; repeat (apply elem_of_union in H as [H|H]);
  apply elem_of_singleton in H; discriminate.

(** C3: a node whose identity is in the excluded set is left as it is, [x]
    and [y] included, by both revisions of [pushSiblings]. *)
Theorem excluded_never_moved (σ : Scene) (o : NodeId) (direction : string)
    (shiftX shiftY : Q) (excluded : gset NodeId) (s : NodeId) :
  s ∈ excluded ->
  node (Bfs.pushSiblings σ o direction shiftX shiftY excluded) s = node σ s
  /\ node (Corridor.pushSiblings σ o direction shiftX shiftY excluded) s = node σ s.
Proof.
  intros Hs. split.
  - destruct (parent (node σ o)) as [p|] eqn:Hp.
    + apply (pushSiblings_not_pushed σ o p); [done|].
      intros H. by apply Pushed_not_excluded in H.
    + unfold Bfs.pushSiblings. by rewrite Hp.
  - unfold Corridor.pushSiblings. destruct (parent (node σ o)); [|done].
    by apply corridor_excluded.
Qed.

Lemma excluded_never_moved_witness :
  node (Bfs.pushSiblings scene2 1 "right" 140 140 {[2%nat]}) 2 = node scene2 2
  /\ node (Corridor.pushSiblings scene2 1 "right" 140 140 {[2%nat]}) 2
     = node scene2 2.
Proof.
  apply (excluded_never_moved scene2 1 "right" 140 140 {[2%nat]} 2).
  apply elem_of_singleton. reflexivity.
Defined.








Lemma Pushed_sceneAdjacent b :
  ~ Pushed sceneAdjacent "right" 140 140 [1%nat; 2%nat] {[1%nat]}
      (Bfs.targetRect "right" 140 140 (node sceneAdjacent 1)) b.
Proof.
  induction 1 as [s Hs Hex Hhit|b s _ IH _ _ _]; [|done].
  apply elem_of_cons in Hs as [->|Hs]; [by apply Hex, elem_of_singleton|].
  apply list_elem_of_singleton in Hs as ->. vm_compute in Hhit. discriminate.
Qed.


(** ** The locked flag plays no part in collision propagation *)

Lemma node_set_locked (σ : Scene) i b j :
  node (alter (set_locked b) i σ) j = node σ j
  \/ node (alter (set_locked b) i σ) j = set_locked b (node σ j).
Proof.
  rewrite node_alter. case_decide as H; [right|by left].
  destruct H as [-> _]. done.
Qed.

Section LockedFlag.
Variable σ : Scene.
Variable i : NodeId.
Variable b : bool.
Variable direction : string.
Variables shiftX shiftY : Q.

Let σl : Scene := alter (set_locked b) i σ.

Lemma overlaps_set_locked j r :
  Bfs.overlaps (node σl j) r = Bfs.overlaps (node σ j) r.
Proof. unfold σl. by destruct (node_set_locked σ i b j) as [-> | ->]. Qed.

Lemma futureRect_set_locked j :
  Bfs.futureRect direction shiftX shiftY (node σl j)
  = Bfs.futureRect direction shiftX shiftY (node σ j).
Proof. unfold σl. by destruct (node_set_locked σ i b j) as [-> | ->]. Qed.

Lemma targetRect_set_locked j :
  Bfs.targetRect direction shiftX shiftY (node σl j)
  = Bfs.targetRect direction shiftX shiftY (node σ j).
Proof. unfold σl. by destruct (node_set_locked σ i b j) as [-> | ->]. Qed.

Lemma parent_set_locked j : parent (node σl j) = parent (node σ j).
Proof. unfold σl. by destruct (node_set_locked σ i b j) as [-> | ->]. Qed.

Lemma children_set_locked j : children (node σl j) = children (node σ j).
Proof. unfold σl. by destruct (node_set_locked σ i b j) as [-> | ->]. Qed.

Lemma visit_set_locked r st s :
  Bfs.visit σl direction shiftX shiftY r st s
  = Bfs.visit σ direction shiftX shiftY r st s.
Proof.
  unfold Bfs.visit. by rewrite overlaps_set_locked, futureRect_set_locked.
Qed.

Lemma scan_set_locked l r st :
  Bfs.scan σl direction shiftX shiftY l r st
  = Bfs.scan σ direction shiftX shiftY l r st.
Proof.
  unfold Bfs.scan. revert st.
  induction l as [|a l IH]; intros st; simpl; [done|].
  by rewrite visit_set_locked, IH.
Qed.

Lemma loop_set_locked fuel l st :
  Bfs.loop σl direction shiftX shiftY fuel l st
  = Bfs.loop σ direction shiftX shiftY fuel l st.
Proof.
  revert st. induction fuel as [|fuel IH]; intros st; simpl; [done|].
  destruct (Bfs.checkQueue st); [done|]. by rewrite scan_set_locked, IH.
Qed.

Lemma applyMoves_set_locked l (σ0 : Scene) :
  Bfs.applyMoves direction shiftX shiftY l (alter (set_locked b) i σ0)
  = alter (set_locked b) i (Bfs.applyMoves direction shiftX shiftY l σ0).
Proof.
  revert σ0. induction l as [|a l IH]; intros σ0; [done|].
  rewrite !applyMoves_cons, <- IH. f_equal.
  destruct (decide (a = i)) as [->|Hne].
  - rewrite !list_alter_alter_eq. by apply list_alter_ext.
  - by apply list_alter_alter_ne.
Qed.

Lemma pushSiblings_set_locked o excluded :
  Bfs.pushSiblings σl o direction shiftX shiftY excluded
  = alter (set_locked b) i (Bfs.pushSiblings σ o direction shiftX shiftY excluded).
Proof.
  unfold Bfs.pushSiblings, Bfs.collect, Bfs.initState.
  rewrite parent_set_locked. destruct (parent (node σ o)) as [p|]; [|done].
  rewrite children_set_locked, targetRect_set_locked, loop_set_locked.
  case_match; [|done]. apply applyMoves_set_locked.
Qed.
Lemma geometry_set_locked j :
  x (node σl j) = x (node σ j) /\ y (node σl j) = y (node σ j)
  /\ width (node σl j) = width (node σ j)
  /\ height (node σl j) = height (node σ j).
Proof. unfold σl. by destruct (node_set_locked σ i b j) as [-> | ->]. Qed.

End LockedFlag.

Lemma corridor_visit_set_locked direction shiftX shiftY excluded o (σ : Scene) i b s :
  Corridor.visit direction shiftX shiftY excluded o (alter (set_locked b) i σ) s
  = alter (set_locked b) i
      (Corridor.visit direction shiftX shiftY excluded o σ s).
Proof.
  unfold Corridor.visit. case_decide; [done|]. cbv zeta.
  destruct (geometry_set_locked σ i b s) as (-> & -> & -> & ->).
  destruct (geometry_set_locked σ i b o) as (-> & -> & -> & ->).
  case_match; [|done].
  destruct (decide (s = i)) as [->|Hne].
  - rewrite !list_alter_alter_eq. by apply list_alter_ext.
  - by apply list_alter_alter_ne.
Qed.

Lemma corridor_pushSiblings_set_locked (σ : Scene) i b o direction shiftX shiftY
    excluded :
  Corridor.pushSiblings (alter (set_locked b) i σ) o direction shiftX shiftY
    excluded
  = alter (set_locked b) i
      (Corridor.pushSiblings σ o direction shiftX shiftY excluded).
Proof.
  unfold Corridor.pushSiblings. rewrite parent_set_locked.
  destruct (parent (node σ o)) as [p|]; [|done].
  rewrite children_set_locked. generalize (children (node σ p)). intros l.
  revert σ. induction l as [|a l IH]; intros σ; simpl; [done|].
  by rewrite corridor_visit_set_locked, IH.
Qed.



(** ** Container adaptation *)

Lemma foldl_length_alter {A} (g : Scene -> A -> Scene) (l : list A) (σ : Scene) :
  (forall τ a, length (g τ a) = length τ) -> length (foldl g σ l) = length σ.
Proof.
  intros Hg. revert σ. induction l as [|a l IH]; intros σ; simpl; [done|].
  by rewrite IH, Hg.
Qed.

Lemma shiftChildX_length shift (σ : Scene) c :
  length (shiftChildX shift σ c) = length σ.
Proof. unfold shiftChildX. case_match; [done|apply length_alter]. Qed.

Lemma shiftChildY_length shift (σ : Scene) c :
  length (shiftChildY shift σ c) = length σ.
Proof. unfold shiftChildY. case_match; [done|apply length_alter]. Qed.

(** The child loop shifts each unlocked child once and nothing else. *)
Lemma foldl_shiftChildX_node shift l (σ : Scene) j :
  NoDup l ->
  node (foldl (shiftChildX shift) σ l) j =
  if decide (j ∈ l /\ (j < length σ)%nat /\ locked (node σ j) = false)
  then set_x (x (node σ j) - shift) (node σ j)
  else node σ j.
Proof.
  revert σ. induction l as [|a l IH]; intros σ Hnd; cbn [foldl].
  - rewrite decide_False; [done|]. intros [H _]. by inversion H.
  - apply NoDup_cons in Hnd as [Ha Hnd]. rewrite IH by done.
    rewrite shiftChildX_length. unfold shiftChildX.
    destruct (decide (j = a)) as [->|Hne].
    + rewrite (decide_False (P := a ∈ l /\ _)) by tauto.
      destruct (locked (node σ a)) eqn:Hl.
      * rewrite decide_False; [done|]. intros (_ & _ & ?). congruence.
      * rewrite node_alter. destruct (decide (a < length σ)%nat).
        -- rewrite !decide_True; [done| |done]. split; [by left|done].
        -- rewrite !decide_False; [done| |]; tauto.
    + assert (node (if locked (node σ a) then σ
                    else alter (fun c => set_x (x c - shift) c) a σ) j
              = node σ j) as ->.
      { case_match; [done|]. by apply node_alter_ne. }
      apply decide_ext. rewrite elem_of_cons. split.
      * intros (Hin & ? & ?). split; [by right|done].
      * intros ([?|?] & ? & ?); done.
Qed.

(** Anything the setters of [y] leave alone survives the loop on [y]. *)
Lemma foldl_shiftChildY_keeps {A} (f : Node -> A) shift l (σ : Scene) j :
  (forall v n, f (set_y v n) = f n) ->
  f (node (foldl (shiftChildY shift) σ l) j) = f (node σ j).
Proof.
  intros Hf. revert σ. induction l as [|a l IH]; intros σ; simpl; [done|].
  rewrite IH. unfold shiftChildY. case_match; [done|].
  rewrite node_alter. case_decide as Hd; [|done]. destruct Hd as [-> _]. apply Hf.
Qed.

Lemma resizeParent_keeps {A} (f : Node -> A) p w h (σ : Scene) j :
  (forall w h n, f (set_size w h n) = f n) ->
  f (node (resizeParent p w h σ) j) = f (node σ j).
Proof.
  intros Hf. unfold resizeParent. rewrite node_alter.
  case_decide as Hd; [|done]. destruct Hd as [-> _]. apply Hf.
Qed.

Lemma growRight_keeps {A} (f : Node -> A) n p (σ : Scene) j :
  (forall w h n, f (set_size w h n) = f n) ->
  f (node (growRight n p σ) j) = f (node σ j).
Proof. intros. unfold growRight. case_match; [by apply resizeParent_keeps|done]. Qed.

Lemma growBottom_keeps {A} (f : Node -> A) n p (σ : Scene) j :
  (forall w h n, f (set_size w h n) = f n) ->
  f (node (growBottom n p σ) j) = f (node σ j).
Proof. intros. unfold growBottom. case_match; [by apply resizeParent_keeps|done]. Qed.

Lemma growBottom_width n p (σ : Scene) j :
  width (node (growBottom n p σ) j) = width (node σ j).
Proof.
  unfold growBottom, resizeParent. case_match; [|done].
  rewrite node_alter. case_decide as Hd; [|done]. by destruct Hd as [-> _].
Qed.

Lemma growTop_x n p (σ : Scene) j : x (node (growTop n p σ) j) = x (node σ j).
Proof.
  unfold growTop. case_match; [|done].
  rewrite (foldl_shiftChildY_keeps x) by done.
  rewrite node_alter. case_decide as Hd.
  - destruct Hd as [-> _]. simpl. by apply (resizeParent_keeps x).
  - by apply (resizeParent_keeps x).
Qed.

Lemma growTop_width n p (σ : Scene) j :
  width (node (growTop n p σ) j) = width (node σ j).
Proof.
  unfold growTop. case_match; [|done].
  rewrite (foldl_shiftChildY_keeps width) by done.
  assert (forall i, width (node (resizeParent p (width (node σ p))
            (height (node σ p) - (y (node σ n) - SECTION_PADDING)) σ) i)
          = width (node σ i)) as Hw.
  { intros i. unfold resizeParent. rewrite node_alter.
    case_decide as Hd; [|done]. by destruct Hd as [-> _]. }
  rewrite node_alter. case_decide as Hd; [|apply Hw].
  destruct Hd as [-> _]. simpl. apply Hw.
Qed.

(** C5: in an unlocked section, a node whose left edge is under the padding
    of 80 makes the section grow to the left by [-shift], with
    [shift = x - 80]: the width it has after the right-edge rule grows by
    [-shift], its own [x] goes down by [-shift], every unlocked child goes
    up by [-shift] and the locked children keep their stored [x]. *)
Theorem section_grows_left (σ : Scene) (n p : NodeId) :
  parent (node σ n) = Some p ->
  type (node σ p) = "SECTION" -> locked (node σ p) = false ->
  (p < length σ)%nat ->
  NoDup (children (node σ p)) -> p ∉ children (node σ p) ->
  x (node σ n) < SECTION_PADDING ->
  let shift := x (node σ n) - SECTION_PADDING in
  let σ' := expandSectionIfNeeded n σ in
  width (node σ' p) = width (node (growRight n p σ) p) + - shift
  /\ (x (node σ n) + width (node σ n) <= width (node σ p) - SECTION_PADDING ->
      width (node σ' p) = width (node σ p) + - shift)
  /\ x (node σ' p) = x (node σ p) + shift
  /\ x (node σ' p) == x (node σ p) - - shift
  /\ (forall c, c ∈ children (node σ p) -> (c < length σ)%nat ->
        locked (node σ c) = false ->
        x (node σ' c) = x (node σ c) + - shift)
  /\ (forall c, c ∈ children (node σ p) -> locked (node σ c) = true ->
        x (node σ' c) = x (node σ c)).
Proof.
  intros Hp Htype Hlocked Hlt Hnd Hself Hx shift σ'.
  set (σ2 := growBottom n p (growRight n p σ)).
  assert (forall {A} (f : Node -> A) j,
            (forall w h m, f (set_size w h m) = f m) ->
            f (node σ2 j) = f (node σ j)) as Hkeep.
  { intros A f j Hf. unfold σ2.
    rewrite (growBottom_keeps f), (growRight_keeps f); done. }
  assert (length σ2 = length σ) as Hlen.
  { unfold σ2, growBottom, growRight, resizeParent.
    repeat case_match; rewrite ?length_alter; done. }
  assert (σ' = growTop n p (growLeft n p σ2)) as ->.
  { unfold σ', expandSectionIfNeeded. rewrite Hp, Htype, Hlocked. done. }
  set (σa := resizeParent p (width (node σ2 p) - shift) (height (node σ2 p)) σ2).
  set (σb := alter (fun q => set_x (x q + shift) q) p σa).
  assert (growLeft n p σ2 = foldl (shiftChildX shift) σb (children (node σ p)))
    as Hleft.
  { unfold growLeft. rewrite (Hkeep _ x) by done.
    apply Qltb_lt in Hx. rewrite Hx. cbv zeta. fold shift. fold σa. fold σb.
    f_equal. unfold σb. rewrite node_alter_eq.
    - simpl. unfold σa. rewrite (resizeParent_keeps children) by done.
      by apply (Hkeep _ children).
    - unfold σa, resizeParent. rewrite length_alter. lia. }
  assert (node σb p = set_x (x (node σ p) + shift)
                        (set_size (width (node σ2 p) - shift)
                                  (height (node σ2 p)) (node σ2 p))) as Hpb.
  { unfold σb. rewrite node_alter_eq.
    - unfold σa, resizeParent. rewrite node_alter_eq by lia. simpl.
      by rewrite (Hkeep _ x).
    - unfold σa, resizeParent. rewrite length_alter. lia. }
  assert (forall c, c <> p -> node σb c = node σ2 c) as Hcb.
  { intros c Hc. unfold σb, σa, resizeParent.
    rewrite !node_alter_ne; done. }
  assert (length σb = length σ) as Hlenb.
  { unfold σb, σa, resizeParent. by rewrite !length_alter. }
  assert (width (node (growTop n p (growLeft n p σ2)) p)
          = width (node (growRight n p σ) p) + - shift) as Hw.
  { rewrite growTop_width, Hleft, foldl_shiftChildX_node by done.
    rewrite decide_False by tauto. rewrite Hpb. simpl.
    unfold σ2. by rewrite growBottom_width. }
  assert (x (node (growTop n p (growLeft n p σ2)) p) = x (node σ p) + shift)
    as Hxp.
  { rewrite growTop_x, Hleft, foldl_shiftChildX_node by done.
    rewrite decide_False by tauto. by rewrite Hpb. }
  split_and!.
  - done.
  - intros Hfit. rewrite Hw. unfold growRight.
    assert (Qgtb (x (node σ n) + width (node σ n))
                 (width (node σ p) - SECTION_PADDING) = false) as ->; [|done].
    by apply Qltb_ge.
  - done.
  - rewrite Hxp. ring.
  - intros c Hc Hclt Hcl.
    assert (c <> p) as Hcp by (intros ->; done).
    rewrite growTop_x, Hleft, foldl_shiftChildX_node by done.
    rewrite Hcb by done. rewrite decide_True.
    + simpl. by rewrite (Hkeep _ x).
    + rewrite Hlenb, (Hkeep _ locked) by done. done.
  - intros c Hc Hcl.
    assert (c <> p) as Hcp by (intros ->; done).
    rewrite growTop_x, Hleft, foldl_shiftChildX_node by done.
    rewrite Hcb by done. rewrite decide_False.
    + by apply (Hkeep _ x).
    + rewrite (Hkeep _ locked) by done. intros (_ & _ & ?). congruence.
Qed.

Ltac decide_closed := apply (bool_decide_unpack _); vm_compute; exact I.

Lemma section_grows_left_witness :
  let σ' := expandSectionIfNeeded 1 sceneSectionLeft in
  x (node σ' 0) == x (node sceneSectionLeft 0) - 90
  /\ width (node σ' 0) == width (node sceneSectionLeft 0) + 90
  /\ x (node σ' 3) == x (node sceneSectionLeft 3) + 90
  /\ x (node σ' 2) = x (node sceneSectionLeft 2).
Proof.
  cbv zeta.
  assert (NoDup (children (node sceneSectionLeft 0))) as Hnd by decide_closed.
  assert (0%nat ∉ children (node sceneSectionLeft 0)) as Hself by decide_closed.
  assert (0 < length sceneSectionLeft)%nat as Hlt by (cbn; lia).
  assert (x (node sceneSectionLeft 1) < SECTION_PADDING) as Hx by reflexivity.
  destruct (section_grows_left sceneSectionLeft 1 0
              eq_refl eq_refl eq_refl Hlt Hnd Hself Hx)
    as (_ & Hw & Hxp & _ & Hun & Hlk).
  split_and!.
  - rewrite Hxp. reflexivity.
  - rewrite Hw; [reflexivity|]. vm_compute. discriminate.
  - rewrite (Hun 3%nat); [reflexivity|in_list|cbn; lia|reflexivity].
  - apply Hlk; [in_list|reflexivity].
Defined.

(** ** Direction decomposition *)

Lemma node_app_l (σ : Scene) (l : list Node) i :
  (i < length σ)%nat -> node (σ ++ l) i = node σ i.
Proof. intros. unfold node. by rewrite lookup_total_app_l. Qed.

Lemma node_app_new (σ : Scene) (m : Node) : node (σ ++ [m]) (length σ) = m.
Proof.
  unfold node. rewrite lookup_total_app_r by lia.
  by rewrite Nat.sub_diag.
Qed.

Lemma Ext_refl f (σ : Scene) : Ext f σ σ.
Proof. by split. Qed.

Lemma Ext_trans f (σ1 σ2 σ3 : Scene) : Ext f σ1 σ2 -> Ext f σ2 σ3 -> Ext f σ1 σ3.
Proof.
  intros [Hl1 Hk1] [Hl2 Hk2]. split; [lia|].
  intros i Hi. rewrite Hk2 by lia. by apply Hk1.
Qed.

Section Axis.
Variable f : Node -> Q.
Variable direction : string.

Hypothesis Haxis :
  (f = x /\ includes direction "left" = false
         /\ includes direction "right" = false)
  \/ (f = y /\ includes direction "top" = false
            /\ includes direction "bottom" = false).

Lemma kept_set_children cs n : kept f (set_children cs n) = kept f n.
Proof. by destruct Haxis as [(-> & _)|(-> & _)]. Qed.

Lemma kept_moveNode shiftX shiftY n :
  kept f (Bfs.moveNode direction shiftX shiftY n) = kept f n.
Proof.
  destruct Haxis as [(-> & Hl & Hr)|(-> & Ht & Hb)];
    unfold kept, Bfs.moveNode, shiftH, shiftV; simpl.
  - by rewrite Hl, Hr.
  - by rewrite Ht, Hb.
Qed.

Lemma bfs_applyMoves_kept shiftX shiftY l (σ : Scene) i :
  kept f (node (Bfs.applyMoves direction shiftX shiftY l σ) i)
  = kept f (node σ i).
Proof.
  revert σ. induction l as [|a l IH]; intros σ; [done|].
  rewrite applyMoves_cons, IH, node_alter.
  case_decide as Hd; [|done]. destruct Hd as [-> _]. apply kept_moveNode.
Qed.

Lemma bfs_push_kept (σ : Scene) o shiftX shiftY excluded i :
  kept f (node (Bfs.pushSiblings σ o direction shiftX shiftY excluded) i)
  = kept f (node σ i).
Proof.
  unfold Bfs.pushSiblings. repeat case_match; try done.
  apply bfs_applyMoves_kept.
Qed.

Lemma bfs_push_length (σ : Scene) o shiftX shiftY excluded :
  length (Bfs.pushSiblings σ o direction shiftX shiftY excluded) = length σ.
Proof.
  unfold Bfs.pushSiblings. repeat case_match; try done.
  apply applyMoves_length.
Qed.

Lemma corridor_visit_kept shiftX shiftY excluded o (σ : Scene) s i :
  kept f (node (Corridor.visit direction shiftX shiftY excluded o σ s) i)
  = kept f (node σ i).
Proof.
  unfold Corridor.visit. case_decide; [done|]. cbv zeta.
  case_match; [|done]. rewrite node_alter.
  case_decide as Hd; [|done]. destruct Hd as [-> _].
  destruct Haxis as [(-> & Hl & Hr)|(-> & Ht & Hb)]; unfold kept; simpl.
  - rewrite Hl, Hr. simpl. by rewrite Qplus_0_r_eq.
  - rewrite Ht, Hb. simpl. by rewrite Qplus_0_r_eq.
Qed.

Lemma corridor_visit_length shiftX shiftY excluded o (σ : Scene) s :
  length (Corridor.visit direction shiftX shiftY excluded o σ s) = length σ.
Proof.
  unfold Corridor.visit. case_decide; [done|]. cbv zeta.
  case_match; [apply length_alter|done].
Qed.

Lemma corridor_push_kept (σ : Scene) o shiftX shiftY excluded i :
  kept f (node (Corridor.pushSiblings σ o direction shiftX shiftY excluded) i)
  = kept f (node σ i).
Proof.
  unfold Corridor.pushSiblings. destruct (parent (node σ o)) as [p|]; [|done].
  generalize (children (node σ p)). intros l. revert σ.
  induction l as [|a l IH]; intros σ; simpl; [done|].
  rewrite IH. apply corridor_visit_kept.
Qed.

Lemma corridor_push_length (σ : Scene) o shiftX shiftY excluded :
  length (Corridor.pushSiblings σ o direction shiftX shiftY excluded)
  = length σ.
Proof.
  unfold Corridor.pushSiblings. case_match; [|done].
  apply foldl_length_alter. intros. apply corridor_visit_length.
Qed.
End Axis.

Lemma adaptsContainer_false_guard (p : Node) :
  adaptsContainer p = false ->
  negb (String.eqb (type p) "SECTION") || locked p = true.
Proof.
  unfold adaptsContainer.
  destruct (String.eqb (type p) "SECTION"), (locked p); done.
Qed.

Lemma kept_adaptsContainer f (n m : Node) :
  kept f n = kept f m -> adaptsContainer n = adaptsContainer m.
Proof. unfold kept, adaptsContainer. intros [= _ -> -> _]. done. Qed.

Section AxisBatch.
Variable f : Node -> Q.
Variable direction : string.

Hypothesis Haxis :
  (f = x /\ includes direction "left" = false
         /\ includes direction "right" = false)
  \/ (f = y /\ includes direction "top" = false
            /\ includes direction "bottom" = false).

Variable push : Scene -> NodeId -> string -> Q -> Q -> gset NodeId -> Scene.

Hypothesis push_length : forall (σ : Scene) o sx sy e,
  length (push σ o direction sx sy e) = length σ.
Hypothesis push_kept : forall (σ : Scene) o sx sy e i,
  kept f (node (push σ o direction sx sy e) i) = kept f (node σ i).

Variable gap : option Q.
Variable pushEnabled : bool.

Lemma f_of_kept (n m : Node) : kept f n = kept f m -> f n = f m.
Proof. unfold kept. by intros [= -> _]. Qed.

Lemma placeClone_ext (b : Batch) (n p : NodeId) :
  (n < length (scene b))%nat -> (p < length (scene b))%nat ->
  adaptsContainer (node (scene b) p) = false ->
  let b' := placeClone push direction gap pushEnabled n p b in
  Ext f (scene b) (scene b')
  /\ newSelection b' = newSelection b ++ [length (scene b)]
  /\ (length (scene b) < length (scene b'))%nat
  /\ f (node (scene b') (length (scene b))) = f (node (scene b) n).
Proof.
  intros Hn Hp Hads. unfold placeClone. cbv zeta.
  set (σ := scene b) in *.
  set (g := effectiveGap gap (node σ n)).
  set (sx := width (node σ n) + g). set (sy := height (node σ n) + g).
  set (σ1 := if pushEnabled then push σ n direction sx sy (processedIds b)
             else σ).
  assert (length σ1 = length σ) as Hlen1.
  { unfold σ1. destruct pushEnabled; [apply push_length|done]. }
  assert (forall i, kept f (node σ1 i) = kept f (node σ i)) as Hk1.
  { intros i. unfold σ1. destruct pushEnabled; [apply push_kept|done]. }
  unfold clone. rewrite Hlen1.
  set (c := length σ).
  set (cn := set_children [] (set_parent None (node σ1 n))).
  set (σ2 := σ1 ++ [cn]).
  assert (length σ2 = S c) as Hlen2.
  { unfold σ2. rewrite length_app, Hlen1. simpl. unfold c. lia. }
  unfold appendChild.
  set (σp := alter (fun q => set_children (children q ++ [c]) q) p σ2).
  set (σ3 := alter (set_parent (Some p)) c σp).
  set (vx := shiftH direction sx (x (node σ3 n))).
  set (σ4 := alter (set_x vx) c σ3).
  set (vy := shiftV direction sy (y (node σ4 n))).
  set (σ5 := alter (set_y vy) c σ4).
  assert (n <> c) as Hnc by (unfold c; lia).
  assert (p <> c) as Hpc by (unfold c; lia).
  assert (forall i, (i < c)%nat -> kept f (node σp i) = kept f (node σ i))
    as Hkp.
  { intros i Hi. unfold σp. rewrite node_alter.
    case_decide as Hd.
    - destruct Hd as [-> _]. rewrite (kept_set_children f direction) by done.
      unfold σ2. rewrite node_app_l by lia. apply Hk1.
    - unfold σ2. rewrite node_app_l by lia. apply Hk1. }
  assert (forall i, i <> c -> node σ5 i = node σp i) as Hother.
  { intros i Hi. unfold σ5, σ4, σ3. by rewrite !node_alter_ne. }
  assert (node σp c = cn) as Hcp.
  { unfold σp. rewrite node_alter_ne by done.
    unfold σ2, c. rewrite <- Hlen1. apply node_app_new. }
  assert (length σp = S c) as Hlenp.
  { unfold σp. by rewrite length_alter. }
  assert (node σ5 c = set_y vy (set_x vx (set_parent (Some p) cn))) as Hc5.
  { unfold σ5. rewrite node_alter_eq.
    2:{ unfold σ4, σ3. rewrite !length_alter. lia. }
    unfold σ4. rewrite node_alter_eq.
    2:{ unfold σ3. rewrite !length_alter. lia. }
    unfold σ3. rewrite node_alter_eq by lia. by rewrite Hcp. }
  assert (expandSectionIfNeeded c σ5 = σ5) as Hexp.
  { unfold expandSectionIfNeeded. rewrite Hc5. simpl.
    rewrite adaptsContainer_false_guard; [done|].
    rewrite Hother by done. rewrite <- Hads.
    apply (kept_adaptsContainer f), Hkp. unfold c. lia. }
  simpl. rewrite Hexp. split_and!.
  - split.
    + unfold σ5, σ4, σ3. rewrite !length_alter, Hlenp. unfold c. lia.
    + intros i Hi. fold c in Hi. rewrite Hother by lia. by apply Hkp.
  - done.
  - unfold σ5, σ4, σ3. rewrite !length_alter, Hlenp. unfold c. lia.
  - fold c. rewrite Hc5.
    assert (forall τ, node τ n = node σp n ->
              kept f (node τ n) = kept f (node σ1 n)) as Hn1.
    { intros τ ->. rewrite Hkp by (unfold c; lia). symmetry. apply Hk1. }
    assert (node σ3 n = node σp n) as H3.
    { unfold σ3. by rewrite node_alter_ne. }
    assert (node σ4 n = node σp n) as H4.
    { unfold σ4. rewrite node_alter_ne by done. apply H3. }
    assert (kept f (node σ n) = kept f (node σ1 n)) as Hk by (symmetry; apply Hk1).
    apply f_of_kept in Hk. rewrite Hk.
    unfold vx, vy. rewrite H3, H4.
    pose proof (Hn1 _ eq_refl) as Hkn. apply f_of_kept in Hkn.
    destruct Haxis as [(Hf & Hl & Hr)|(Hf & Ht & Hb)]; subst f;
      unfold shiftH, shiftV; simpl.
    * by rewrite Hl, Hr.
    * by rewrite Ht, Hb.
Qed.
Lemma insertClone_ext (b : Batch) (n p : NodeId) :
  (n < length (scene b))%nat ->
  let b' := insertClone direction gap n p b in
  Ext f (scene b) (scene b')
  /\ (newSelection b' = newSelection b
      \/ newSelection b' = newSelection b ++ [length (scene b)]
         /\ (length (scene b) < length (scene b'))%nat
         /\ f (node (scene b') (length (scene b))) = f (node (scene b) n)).
Proof.
  intros Hn. unfold insertClone, clone. cbv zeta.
  set (σ := scene b) in *. set (c := length σ).
  set (cn := set_children [] (set_parent None (node σ n))).
  set (σ1 := σ ++ [cn]).
  assert (length σ1 = S c) as Hlen1.
  { unfold σ1. rewrite length_app. simpl. unfold c. lia. }
  assert (Ext f σ σ1) as Hext1.
  { split; [lia|]. intros i Hi. unfold σ1. by rewrite node_app_l. }
  unfold insertChild. case_decide; simpl; [|split; [done|by left]].
  set (σp := alter _ p σ1).
  assert (length σp = S c) as Hlenp.
  { unfold σp. by rewrite length_alter. }
  split; [|right; split_and!].
  - split; [rewrite length_alter, Hlenp; unfold c; lia|].
    intros i Hi. rewrite node_alter_ne by (unfold c; lia).
    unfold σp. rewrite node_alter. case_decide as Hd.
    + destruct Hd as [-> _]. rewrite (kept_set_children f direction) by done.
      by apply Hext1.
    + by apply Hext1.
  - done.
  - rewrite length_alter, Hlenp. unfold c. lia.
  - assert (f (node σp c) = f (node σ n)) as Hfc.
    { unfold σp. rewrite node_alter. case_decide as Hd.
      - destruct Hd as [-> _].
        assert (node σ1 c = cn) as -> by (unfold σ1, c; apply node_app_new).
        unfold cn. by destruct Haxis as [(-> & _)|(-> & _)].
      - unfold σ1, c. rewrite node_app_new.
        unfold cn. by destruct Haxis as [(-> & _)|(-> & _)]. }
    rewrite node_alter_eq by (rewrite Hlenp; lia).
    rewrite <- Hfc. by destruct Haxis as [(-> & _)|(-> & _)].
Qed.

Lemma processNode_ext (b : Batch) (n : NodeId) :
  (n < length (scene b))%nat ->
  (forall p, parent (node (scene b) n) = Some p ->
     (p < length (scene b))%nat /\ adaptsContainer (node (scene b) p) = false) ->
  let b' := processNode push direction gap pushEnabled b n in
  Ext f (scene b) (scene b')
  /\ (newSelection b' = newSelection b
      \/ newSelection b' = newSelection b ++ [length (scene b)]
         /\ (length (scene b) < length (scene b'))%nat
         /\ f (node (scene b') (length (scene b))) = f (node (scene b) n)).
Proof.
  intros Hn Hp. unfold processNode.
  destruct (parent (node (scene b) n)) as [p|]; [|split; [apply Ext_refl|by left]].
  destruct (Hp p eq_refl) as [Hplt Hads].
  case_match; [by apply insertClone_ext|].
  destruct (placeClone_ext b n p Hn Hplt Hads) as (? & ? & ? & ?).
  split; [done|]. by right.
Qed.

Lemma foldl_processNode_ext (σ : Scene) (selection l : list NodeId) (b : Batch) :
  free_of_sections σ selection ->
  (forall n, n ∈ l -> n ∈ selection) ->
  Ext f σ (scene b) ->
  (forall c, c ∈ newSelection b ->
     (c < length (scene b))%nat
     /\ exists n, n ∈ selection /\ f (node (scene b) c) = f (node σ n)) ->
  let b' := foldl (processNode push direction gap pushEnabled) b l in
  Ext f σ (scene b')
  /\ (forall c, c ∈ newSelection b' ->
        (c < length (scene b'))%nat
        /\ exists n, n ∈ selection /\ f (node (scene b') c) = f (node σ n)).
Proof.
  intros Hfree. revert b. induction l as [|n l IH]; intros b Hl Hext Hnew;
    simpl; [done|].
  assert (n ∈ selection) as Hsel by (apply Hl; by left).
  destruct (Hfree n Hsel) as [Hnlt Hpar].
  destruct Hext as [Hlen Hk].
  destruct (processNode_ext b n) as [Hstep Hsel'].
  { lia. }
  { intros p Hp.
    assert (parent (node σ n) = Some p) as Hp0.
    { specialize (Hk n Hnlt). unfold kept in Hk.
      injection Hk as _ _ _ Hpar'. congruence. }
    destruct (Hpar p Hp0) as [Hplt Hads]. split; [lia|].
    rewrite <- Hads. apply (kept_adaptsContainer f). by apply Hk. }
  apply IH.
  - intros m Hm. apply Hl. by right.
  - by apply (Ext_trans f σ (scene b)).
  - destruct Hstep as [Hlen' Hk'].
    assert (forall c, c ∈ newSelection b ->
              (c < length (scene (processNode push direction gap pushEnabled b n)))%nat
              /\ exists m, m ∈ selection
                   /\ f (node (scene (processNode push direction gap pushEnabled b n)) c)
                      = f (node σ m)) as Hold.
    { intros c Hc. destruct (Hnew c Hc) as (Hclt & m & Hm & Hfm).
      split; [lia|]. exists m. split; [done|].
      rewrite <- Hfm. apply f_of_kept. by apply Hk'. }
    destruct Hsel' as [->|(-> & Hlt' & Hfc)]; [done|].
    intros c [Hc| ->%list_elem_of_singleton]%elem_of_app; [by apply Hold|].
    split; [done|]. exists n. split; [done|].
    rewrite Hfc. apply f_of_kept. by apply Hk.
Qed.

Lemma performDuplicate_axis (σ : Scene) (selection : list NodeId) :
  free_of_sections σ selection ->
  axis_frame f σ selection
    (performDuplicate push direction gap pushEnabled σ selection).
Proof.
  intros Hfree. unfold performDuplicate.
  destruct selection as [|a l] eqn:Hs.
  { split; [done|]. intros c Hc. by inversion Hc. }
  rewrite <- Hs in *. simpl.
  destruct (foldl_processNode_ext σ selection
              (sortedSelection σ direction selection)
              (mkBatch σ [] (list_to_set selection) false 40 []))
    as [[Hlen Hk] Hnew].
  - done.
  - intros n Hn. unfold sortedSelection in Hn.
    by rewrite sortBy_perm in Hn.
  - apply Ext_refl.
  - intros c Hc. by inversion Hc.
  - split; simpl.
    + intros i Hi. apply f_of_kept. by apply Hk.
    + intros c Hc. by destruct (Hnew c Hc) as [_ ?].
Qed.
End AxisBatch.



Lemma free_of_sections_scene2 : free_of_sections scene2 [1%nat].
Proof.
  intros n ->%list_elem_of_singleton. split; [cbn; lia|].
  intros p [= <-]. split; [cbn; lia|reflexivity].
Qed.


(** ** Worked scenarios *)

(** A alone on the page, duplicated to the right with the detected gap: the
    clone is the node 2 at [x = 140] and A stays. *)
Example scenario_single :
  let b := performDuplicate Bfs.pushSiblings "right" None true scene1 [1%nat] in
  newSelection b = [2%nat]
  /\ node (scene b) 2 = frame 140 0 100 100 (Some 0%nat) []
  /\ node (scene b) 1 = node scene1 1
  /\ notifications b = [DuplicatedWithGap "right" 40].
Proof. vm_compute. done. Qed.

(** A and B side by side, A duplicated to the right: B is pushed to
    [x = 280] and the clone takes [x = 140]. *)
Example scenario_push :
  let b := performDuplicate Bfs.pushSiblings "right" None true scene2 [1%nat] in
  newSelection b = [3%nat]
  /\ x (node (scene b) 2) = 280
  /\ x (node (scene b) 3) = 140.
Proof. vm_compute. done. Qed.

(** The corridor revision pushes a frame that only touches the place of the
    duplicate, which the breadth-first revision leaves alone. *)
Example corridor_pushes_adjacent :
  x (node (Corridor.pushSiblings sceneAdjacent 1 "right" 140 140 {[1%nat]}) 2) = 380
  /\ x (node (Bfs.pushSiblings sceneAdjacent 1 "right" 140 140 {[1%nat]}) 2) = 240.
Proof. vm_compute. done. Qed.

(** The corridor revision does not follow chains: C overlaps the place B is
    pushed to but is outside A's row, and only the breadth-first revision
    moves it. *)
Example corridor_not_transitive :
  x (node (Corridor.pushSiblings sceneCorridor 1 "right" 140 140 {[1%nat]}) 2) = 240
  /\ x (node (Corridor.pushSiblings sceneCorridor 1 "right" 140 140 {[1%nat]}) 3) = 250
  /\ x (node (Bfs.pushSiblings sceneCorridor 1 "right" 140 140 {[1%nat]}) 2) = 240
  /\ x (node (Bfs.pushSiblings sceneCorridor 1 "right" 140 140 {[1%nat]}) 3) = 390.
Proof. vm_compute. done. Qed.

(** ** Collision propagation: what is moved and what is not *)

Lemma shape_moveNode direction shiftX shiftY n :
  shape (Bfs.moveNode direction shiftX shiftY n) = shape n.
Proof. reflexivity. Qed.

Lemma bfs_applyMoves_shape direction shiftX shiftY l (σ : Scene) i :
  shape (node (Bfs.applyMoves direction shiftX shiftY l σ) i) = shape (node σ i).
Proof.
  revert σ. induction l as [|a l IH]; intros σ; [done|].
  rewrite applyMoves_cons, IH, node_alter.
  case_decide as Hd; [|done]. by destruct Hd as [-> _].
Qed.

Lemma bfs_push_shape (σ : Scene) o direction shiftX shiftY excluded i :
  shape (node (Bfs.pushSiblings σ o direction shiftX shiftY excluded) i)
  = shape (node σ i).
Proof.
  unfold Bfs.pushSiblings. repeat case_match; try done.
  apply bfs_applyMoves_shape.
Qed.

Lemma bfs_push_len (σ : Scene) o direction shiftX shiftY excluded :
  length (Bfs.pushSiblings σ o direction shiftX shiftY excluded) = length σ.
Proof.
  unfold Bfs.pushSiblings. repeat case_match; try done.
  apply applyMoves_length.
Qed.

Lemma corridor_visit_shape direction shiftX shiftY excluded o (σ : Scene) s i :
  shape (node (Corridor.visit direction shiftX shiftY excluded o σ s) i)
  = shape (node σ i).
Proof.
  unfold Corridor.visit. case_decide; [done|]. cbv zeta.
  case_match; [|done]. rewrite node_alter.
  case_decide as Hd; [|done]. by destruct Hd as [-> _].
Qed.

Lemma corridor_visit_len direction shiftX shiftY excluded o (σ : Scene) s :
  length (Corridor.visit direction shiftX shiftY excluded o σ s) = length σ.
Proof.
  unfold Corridor.visit. case_decide; [done|]. cbv zeta.
  case_match; [apply length_alter|done].
Qed.

Lemma corridor_push_shape (σ : Scene) o direction shiftX shiftY excluded i :
  shape (node (Corridor.pushSiblings σ o direction shiftX shiftY excluded) i)
  = shape (node σ i).
Proof.
  unfold Corridor.pushSiblings. destruct (parent (node σ o)) as [p|]; [|done].
  generalize (children (node σ p)). intros l. revert σ.
  induction l as [|a l IH]; intros σ; simpl; [done|].
  rewrite IH. apply corridor_visit_shape.
Qed.

Lemma corridor_push_len (σ : Scene) o direction shiftX shiftY excluded :
  length (Corridor.pushSiblings σ o direction shiftX shiftY excluded) = length σ.
Proof.
  unfold Corridor.pushSiblings. case_match; [|done].
  apply foldl_length_alter. intros. apply corridor_visit_len.
Qed.

Lemma corridor_foldl_untouched direction shiftX shiftY excluded o l (σ : Scene) i :
  i ∉ l ->
  node (foldl (Corridor.visit direction shiftX shiftY excluded o) σ l) i
  = node σ i.
Proof.
  revert σ. induction l as [|a l IH]; intros σ Hi; simpl; [done|].
  apply not_elem_of_cons in Hi as [Hne Hi].
  rewrite IH by done. apply corridor_visit_other. by left.
Qed.



(** X2: neither revision of [pushSiblings] creates or removes a node, and
    neither changes anything of a node but [x] and [y]. *)
Theorem pushSiblings_only_moves (σ : Scene) (o : NodeId) (direction : string)
    (shiftX shiftY : Q) (excluded : gset NodeId) (i : NodeId) :
  let σb := Bfs.pushSiblings σ o direction shiftX shiftY excluded in
  let σc := Corridor.pushSiblings σ o direction shiftX shiftY excluded in
  (length σb = length σ /\ shape (node σb i) = shape (node σ i))
  /\ (length σc = length σ /\ shape (node σc i) = shape (node σ i)).
Proof.
  cbv zeta. split_and!.
  - apply bfs_push_len.
  - apply bfs_push_shape.
  - apply corridor_push_len.
  - apply corridor_push_shape.
Qed.

(** X3: both revisions of [pushSiblings] touch the children of the parent
    of the original only; without a parent nothing is touched. *)
Theorem pushSiblings_only_siblings (σ : Scene) (o : NodeId) (direction : string)
    (shiftX shiftY : Q) (excluded : gset NodeId) (i : NodeId) :
  (forall p, parent (node σ o) = Some p -> i ∉ children (node σ p)) ->
  node (Bfs.pushSiblings σ o direction shiftX shiftY excluded) i = node σ i
  /\ node (Corridor.pushSiblings σ o direction shiftX shiftY excluded) i
     = node σ i.
Proof.
  intros Hi. split.
  - destruct (parent (node σ o)) as [p|] eqn:Hp.
    + apply (pushSiblings_not_pushed σ o p); [done|].
      intros HP. apply (Hi p eq_refl). by destruct HP.
    + unfold Bfs.pushSiblings. by rewrite Hp.
  - unfold Corridor.pushSiblings.
    destruct (parent (node σ o)) as [p|]; [|done].
    apply corridor_foldl_untouched. by apply Hi.
Qed.

Lemma pushSiblings_only_siblings_witness :
  node (Bfs.pushSiblings scene2 1 "right" 140 140 {[1%nat]}) 0 = node scene2 0
  /\ node (Corridor.pushSiblings scene2 1 "right" 140 140 {[1%nat]}) 0
     = node scene2 0.
Proof.
  apply (pushSiblings_only_siblings scene2 1 "right" 140 140 {[1%nat]} 0).
  intros p [= <-]. decide_closed.
Defined.



Lemma corridor_visit_congr direction shiftX shiftY excluded o (σ1 σ0 : Scene) s :
  node σ1 s = node σ0 s -> node σ1 o = node σ0 o -> length σ1 = length σ0 ->
  node (Corridor.visit direction shiftX shiftY excluded o σ1 s) s
  = node (Corridor.visit direction shiftX shiftY excluded o σ0 s) s.
Proof.
  intros Hs Ho Hlen. unfold Corridor.visit. case_decide; [done|]. cbv zeta.
  rewrite Hs, Ho. case_match; [|done].
  rewrite !node_alter, Hlen, Hs. reflexivity.
Qed.

Lemma corridor_foldl_pointwise direction shiftX shiftY excluded o l (σ : Scene) s :
  o ∈ excluded -> NoDup l -> s ∈ l ->
  node (foldl (Corridor.visit direction shiftX shiftY excluded o) σ l) s
  = node (Corridor.visit direction shiftX shiftY excluded o σ s) s.
Proof.
  intros Ho. revert σ. induction l as [|a l IH]; intros σ Hnd Hs;
    [by inversion Hs|].
  apply NoDup_cons in Hnd as [Ha Hnd]. simpl.
  destruct (decide (s = a)) as [->|Hne].
  - by apply corridor_foldl_untouched.
  - apply elem_of_cons in Hs as [?|Hs]; [done|]. rewrite IH by done.
    apply corridor_visit_congr.
    + apply corridor_visit_other. by left.
    + apply corridor_visit_other.
      destruct (decide (o = a)) as [<-|]; [by right|by left].
    + apply corridor_visit_len.
Qed.

(** X4: in the corridor revision the siblings are moved inside the loop,
    but when the original is excluded and the children of its parent are
    distinct, every sibling ends where one loop body run on the scene as it
    was before the call puts it. *)
Theorem corridor_pushSiblings_pointwise (σ : Scene) (o p : NodeId)
    (direction : string) (shiftX shiftY : Q) (excluded : gset NodeId)
    (s : NodeId) :
  parent (node σ o) = Some p ->
  o ∈ excluded -> NoDup (children (node σ p)) -> s ∈ children (node σ p) ->
  node (Corridor.pushSiblings σ o direction shiftX shiftY excluded) s
  = node (Corridor.visit direction shiftX shiftY excluded o σ s) s.
Proof.
  intros Hp Ho Hnd Hs. unfold Corridor.pushSiblings. rewrite Hp.
  by apply corridor_foldl_pointwise.
Qed.

Lemma corridor_pushSiblings_pointwise_witness :
  node (Corridor.pushSiblings sceneRow 1 "right" 140 140 {[1%nat]}) 3
  = node (Corridor.visit "right" 140 140 {[1%nat]} 1 sceneRow 3) 3.
Proof.
  apply (corridor_pushSiblings_pointwise sceneRow 1 0).
  - reflexivity.
  - by apply elem_of_singleton.
  - decide_closed.
  - in_list.
Defined.

(** ** Container adaptation: the four rules together *)

Lemma foldl_shiftChildY_node shift l (σ : Scene) j :
  NoDup l ->
  node (foldl (shiftChildY shift) σ l) j =
  if decide (j ∈ l /\ (j < length σ)%nat /\ locked (node σ j) = false)
  then set_y (y (node σ j) - shift) (node σ j)
  else node σ j.
Proof.
  revert σ. induction l as [|a l IH]; intros σ Hnd; cbn [foldl].
  - rewrite decide_False; [done|]. intros [H _]. by inversion H.
  - apply NoDup_cons in Hnd as [Ha Hnd]. rewrite IH by done.
    rewrite shiftChildY_length. unfold shiftChildY.
    destruct (decide (j = a)) as [->|Hne].
    + rewrite (decide_False (P := a ∈ l /\ _)) by tauto.
      destruct (locked (node σ a)) eqn:Hl.
      * rewrite decide_False; [done|]. intros (_ & _ & ?). congruence.
      * rewrite node_alter. destruct (decide (a < length σ)%nat).
        -- rewrite !decide_True; [done| |done]. split; [by left|done].
        -- rewrite !decide_False; [done| |]; tauto.
    + assert (node (if locked (node σ a) then σ
                    else alter (fun c => set_y (y c - shift) c) a σ) j
              = node σ j) as ->.
      { case_match; [done|]. by apply node_alter_ne. }
      apply decide_ext. rewrite elem_of_cons. split.
      * intros (Hin & ? & ?). split; [by right|done].
      * intros ([?|?] & ? & ?); done.
Qed.

Lemma growRight_node n p (σ : Scene) j :
  node (growRight n p σ) j =
  if Qgtb (x (node σ n) + width (node σ n)) (width (node σ p) - SECTION_PADDING)
     && bool_decide (j = p /\ (p < length σ)%nat)
  then set_size (x (node σ n) + width (node σ n) + SECTION_PADDING)
                (height (node σ p)) (node σ p)
  else node σ j.
Proof.
  unfold growRight, resizeParent. case_match; simpl; [|done].
  rewrite node_alter. case_bool_decide as Hd; case_decide as Hd'; try done.
  - destruct Hd as [-> ?]. tauto.
  - destruct Hd' as [-> ?]. tauto.
Qed.

Lemma growBottom_node n p (σ : Scene) j :
  node (growBottom n p σ) j =
  if Qgtb (y (node σ n) + height (node σ n)) (height (node σ p) - SECTION_PADDING)
     && bool_decide (j = p /\ (p < length σ)%nat)
  then set_size (width (node σ p))
                (y (node σ n) + height (node σ n) + SECTION_PADDING) (node σ p)
  else node σ j.
Proof.
  unfold growBottom, resizeParent. case_match; simpl; [|done].
  rewrite node_alter. case_bool_decide as Hd; case_decide as Hd'; try done.
  - destruct Hd as [-> ?]. tauto.
  - destruct Hd' as [-> ?]. tauto.
Qed.

Lemma growLeft_node n p (σ : Scene) j :
  (p < length σ)%nat -> NoDup (children (node σ p)) -> p ∉ children (node σ p) ->
  node (growLeft n p σ) j =
  if Qltb (x (node σ n)) SECTION_PADDING then
    let shift := x (node σ n) - SECTION_PADDING in
    if decide (j = p) then
      set_x (x (node σ p) + shift)
            (set_size (width (node σ p) - shift) (height (node σ p)) (node σ p))
    else if decide (j ∈ children (node σ p) /\ (j < length σ)%nat
                    /\ locked (node σ j) = false)
    then set_x (x (node σ j) - shift) (node σ j)
    else node σ j
  else node σ j.
Proof.
  intros Hplt Hnd Hself. unfold growLeft. case_match; [|done]. cbv zeta.
  set (shift := x (node σ n) - SECTION_PADDING).
  set (σa := resizeParent p (width (node σ p) - shift) (height (node σ p)) σ).
  set (σb := alter (fun q => set_x (x q + shift) q) p σa).
  assert (length σa = length σ) as Hla by (unfold σa, resizeParent; apply length_alter).
  assert (length σb = length σ) as Hlb by (unfold σb; by rewrite length_alter).
  assert (node σb p = set_x (x (node σ p) + shift)
            (set_size (width (node σ p) - shift) (height (node σ p)) (node σ p)))
    as Hpb.
  { unfold σb. rewrite node_alter_eq by lia.
    unfold σa, resizeParent. by rewrite node_alter_eq. }
  assert (forall c, c <> p -> node σb c = node σ c) as Hcb.
  { intros c Hc. unfold σb, σa, resizeParent. by rewrite !node_alter_ne. }
  assert (children (node σb p) = children (node σ p)) as Hch by (by rewrite Hpb).
  rewrite Hch, foldl_shiftChildX_node by done. rewrite Hlb.
  destruct (decide (j = p)) as [->|Hjp].
  - rewrite decide_False by tauto. done.
  - rewrite !Hcb by done. done.
Qed.

Lemma growTop_node n p (σ : Scene) j :
  (p < length σ)%nat -> NoDup (children (node σ p)) -> p ∉ children (node σ p) ->
  node (growTop n p σ) j =
  if Qltb (y (node σ n)) SECTION_PADDING then
    let shift := y (node σ n) - SECTION_PADDING in
    if decide (j = p) then
      set_y (y (node σ p) + shift)
            (set_size (width (node σ p)) (height (node σ p) - shift) (node σ p))
    else if decide (j ∈ children (node σ p) /\ (j < length σ)%nat
                    /\ locked (node σ j) = false)
    then set_y (y (node σ j) - shift) (node σ j)
    else node σ j
  else node σ j.
Proof.
  intros Hplt Hnd Hself. unfold growTop. case_match; [|done]. cbv zeta.
  set (shift := y (node σ n) - SECTION_PADDING).
  set (σa := resizeParent p (width (node σ p)) (height (node σ p) - shift) σ).
  set (σb := alter (fun q => set_y (y q + shift) q) p σa).
  assert (length σa = length σ) as Hla by (unfold σa, resizeParent; apply length_alter).
  assert (length σb = length σ) as Hlb by (unfold σb; by rewrite length_alter).
  assert (node σb p = set_y (y (node σ p) + shift)
            (set_size (width (node σ p)) (height (node σ p) - shift) (node σ p)))
    as Hpb.
  { unfold σb. rewrite node_alter_eq by lia.
    unfold σa, resizeParent. by rewrite node_alter_eq. }
  assert (forall c, c <> p -> node σb c = node σ c) as Hcb.
  { intros c Hc. unfold σb, σa, resizeParent. by rewrite !node_alter_ne. }
  assert (children (node σb p) = children (node σ p)) as Hch by (by rewrite Hpb).
  rewrite Hch, foldl_shiftChildY_node by done. rewrite Hlb.
  destruct (decide (j = p)) as [->|Hjp].
  - rewrite decide_False by tauto. done.
  - rewrite !Hcb by done. done.
Qed.

Lemma grow_lengths n p (σ : Scene) :
  length (growRight n p σ) = length σ
  /\ length (growBottom n p σ) = length σ
  /\ length (growLeft n p σ) = length σ
  /\ length (growTop n p σ) = length σ.
Proof.
  unfold growRight, growBottom, growLeft, growTop, resizeParent.
  split_and!; case_match; try done; try apply length_alter; cbv zeta.
  - rewrite foldl_length_alter by apply shiftChildX_length.
    by rewrite !length_alter.
  - rewrite foldl_length_alter by apply shiftChildY_length.
    by rewrite !length_alter.
Qed.

Section ExpandFacts.
Variable σ : Scene.
Variables n p : NodeId.
Hypothesis Hsc : section_child σ n p.

(** The scene after the four rules, field by field. *)
Lemma expand_table :
  let xn := x (node σ n) in
  let yn := y (node σ n) in
  let W1 := if Qgtb (xn + width (node σ n)) (width (node σ p) - SECTION_PADDING)
            then xn + width (node σ n) + SECTION_PADDING else width (node σ p) in
  let H1 := if Qgtb (yn + height (node σ n)) (height (node σ p) - SECTION_PADDING)
            then yn + height (node σ n) + SECTION_PADDING else height (node σ p) in
  let fl := Qltb xn SECTION_PADDING in
  let ft := Qltb yn SECTION_PADDING in
  let sh := xn - SECTION_PADDING in
  let sv := yn - SECTION_PADDING in
  let moved j := bool_decide (j ∈ children (node σ p) /\ (j < length σ)%nat
                              /\ locked (node σ j) = false) in
  let σ' := expandSectionIfNeeded n σ in
  length σ' = length σ
  /\ (forall j, links (node σ' j) = links (node σ j))
  /\ x (node σ' p) = (if fl then x (node σ p) + sh else x (node σ p))
  /\ width (node σ' p) = (if fl then W1 - sh else W1)
  /\ y (node σ' p) = (if ft then y (node σ p) + sv else y (node σ p))
  /\ height (node σ' p) = (if ft then H1 - sv else H1)
  /\ (forall j, j <> p ->
        width (node σ' j) = width (node σ j)
        /\ height (node σ' j) = height (node σ j)
        /\ x (node σ' j) = (if fl && moved j then x (node σ j) - sh
                            else x (node σ j))
        /\ y (node σ' j) = (if ft && moved j then y (node σ j) - sv
                            else y (node σ j))).
Proof.
  destruct Hsc as (Hp & Htype & Hunl & Hplt & Hnlt & Hnd & Hself & Hn).
  assert (n <> p) as Hnp by (intros ->; done).
  intros xn yn W1 H1 fl ft sh sv moved σ'.
  assert (σ' = growTop n p (growLeft n p (growBottom n p (growRight n p σ))))
    as ->.
  { unfold σ', expandSectionIfNeeded. by rewrite Hp, Htype, Hunl. }
  set (σ1 := growRight n p σ). set (σ2 := growBottom n p σ1).
  set (σ3 := growLeft n p σ2).
  destruct (grow_lengths n p σ) as (Hl1 & _).
  destruct (grow_lengths n p σ1) as (_ & Hl2 & _).
  destruct (grow_lengths n p σ2) as (_ & _ & Hl3 & _).
  destruct (grow_lengths n p σ3) as (_ & _ & _ & Hl4).
  fold σ1 in Hl1. fold σ2 in Hl2. fold σ3 in Hl3.
  (* the right edge *)
  assert (forall j, j <> p -> node σ1 j = node σ j) as H1o.
  { intros j Hj. unfold σ1. rewrite growRight_node.
    rewrite (bool_decide_eq_false_2 (j = p /\ _)) by tauto.
    by rewrite andb_false_r. }
  assert (node σ1 p = set_size W1 (height (node σ p)) (node σ p)) as H1p.
  { unfold σ1. rewrite growRight_node.
    rewrite (bool_decide_eq_true_2 (p = p /\ _)) by done.
    rewrite andb_true_r. unfold W1, xn.
    destruct (Qgtb _ _); [done|]. by destruct (node σ p). }
  (* the bottom edge *)
  assert (forall j, j <> p -> node σ2 j = node σ j) as H2o.
  { intros j Hj. unfold σ2. rewrite growBottom_node.
    rewrite (bool_decide_eq_false_2 (j = p /\ _)) by tauto.
    rewrite andb_false_r. by apply H1o. }
  assert (node σ2 p = set_size W1 H1 (node σ p)) as H2p.
  { unfold σ2. rewrite growBottom_node, Hl1.
    rewrite (bool_decide_eq_true_2 (p = p /\ _)) by done.
    rewrite andb_true_r, !H1o by done. rewrite H1p. simpl.
    unfold H1, yn.
    destruct (Qgtb (y (node σ n) + height (node σ n)) _); reflexivity. }
  (* the left edge *)
  assert (node σ3 p = if fl
            then set_x (x (node σ p) + sh) (set_size (W1 - sh) H1 (node σ p))
            else set_size W1 H1 (node σ p)) as H3p.
  { unfold σ3. rewrite growLeft_node.
    - rewrite H2o by done. fold xn. fold fl. destruct fl; [|done].
      cbv zeta. rewrite decide_True by done. rewrite H2p. done.
    - lia.
    - by rewrite H2p.
    - by rewrite H2p. }
  assert (forall j, j <> p ->
            node σ3 j = if fl && moved j
                        then set_x (x (node σ j) - sh) (node σ j)
                        else node σ j) as H3o.
  { intros j Hj. unfold σ3. rewrite growLeft_node.
    - rewrite (H2o n Hnp). fold xn. fold fl. rewrite !(H2o j Hj).
      destruct fl; [|done].
      cbv zeta. rewrite decide_False by done. rewrite H2p, Hl2, Hl1. simpl.
      unfold moved. case_decide; case_bool_decide; done.
    - lia.
    - by rewrite H2p.
    - by rewrite H2p. }
  assert (y (node σ3 n) = yn) as H3n.
  { rewrite H3o by done. by destruct (fl && moved n). }
  assert (children (node σ3 p) = children (node σ p)) as H3c.
  { rewrite H3p. by destruct fl. }
  (* the top edge *)
  assert (node (growTop n p σ3) p =
          let q := node σ3 p in
          if ft then set_y (y q + sv) (set_size (width q) (height q - sv) q)
          else q) as H4p.
  { rewrite growTop_node.
    - rewrite H3n. fold ft. destruct ft; [|done].
      cbv zeta. by rewrite decide_True.
    - lia.
    - by rewrite H3c.
    - by rewrite H3c. }
  assert (forall j, j <> p ->
            node (growTop n p σ3) j =
            if ft && moved j then set_y (y (node σ3 j) - sv) (node σ3 j)
            else node σ3 j) as H4o.
  { intros j Hj. rewrite growTop_node.
    - rewrite H3n. fold ft. destruct ft; [|by simpl].
      cbv zeta. rewrite decide_False by done. rewrite H3c, Hl3, Hl2, Hl1.
      assert (locked (node σ3 j) = locked (node σ j)) as ->.
      { rewrite H3o by done. by destruct (fl && moved j). }
      simpl. unfold moved. case_decide; case_bool_decide; done.
    - lia.
    - by rewrite H3c.
    - by rewrite H3c. }
  split_and!.
  - lia.
  - intros j. destruct (decide (j = p)) as [->|Hj].
    + rewrite H4p, H3p. cbv zeta. by destruct ft, fl.
    + rewrite H4o, H3o by done. by destruct (ft && moved j), (fl && moved j).
  - rewrite H4p, H3p. cbv zeta. by destruct ft, fl.
  - rewrite H4p, H3p. cbv zeta. by destruct ft, fl.
  - rewrite H4p, H3p. cbv zeta. by destruct ft, fl.
  - rewrite H4p, H3p. cbv zeta. by destruct ft, fl.
  - intros j Hj. rewrite H4o, H3o by done.
    by destruct (ft && moved j), (fl && moved j).
Qed.
End ExpandFacts.

Ltac Qcases :=
  repeat match goal with
  | |- context [Qltb ?a ?b] =>
      let E := fresh "E" in
      destruct (Qltb a b) eqn:E; [apply Qltb_lt in E|apply Qltb_ge in E]
  | |- context [Qgtb ?a ?b] =>
      let E := fresh "E" in unfold Qgtb;
      destruct (Qltb b a) eqn:E; [apply Qltb_lt in E|apply Qltb_ge in E]
  end.

Lemma node_ext (a b : Node) :
  x a = x b -> y a = y b -> width a = width b -> height a = height b ->
  links a = links b -> a = b.
Proof.
  destruct a, b. unfold links. simpl. intros -> -> -> -> [= -> -> -> -> ->].
  done.
Qed.

Lemma section_child_moved (σ : Scene) n p c :
  section_child σ n p ->
  c ∈ children (node σ p) -> (c < length σ)%nat -> locked (node σ c) = false ->
  c <> p
  /\ bool_decide (c ∈ children (node σ p) /\ (c < length σ)%nat
                  /\ locked (node σ c) = false) = true.
Proof.
  intros (_ & _ & _ & _ & _ & _ & Hself & _) Hc Hlt Hl. split.
  - intros ->. done.
  - by apply bool_decide_eq_true_2.
Qed.


Lemma section_child_sceneSectionLeft : section_child sceneSectionLeft 1 0.
Proof.
  unfold section_child. split_and!; try reflexivity; try (cbn; lia).
  - decide_closed.
  - decide_closed.
  - in_list.
Qed.


Lemma expand_noop_when_fits (τ : Scene) (n p : NodeId) :
  parent (node τ n) = Some p ->
  SECTION_PADDING <= x (node τ n) ->
  x (node τ n) + width (node τ n) <= width (node τ p) - SECTION_PADDING ->
  SECTION_PADDING <= y (node τ n) ->
  y (node τ n) + height (node τ n) <= height (node τ p) - SECTION_PADDING ->
  expandSectionIfNeeded n τ = τ.
Proof.
  intros Hp Hx Hxw Hy Hyh. unfold expandSectionIfNeeded. rewrite Hp.
  case_match; [done|].
  apply Qltb_ge in Hx, Hxw, Hy, Hyh.
  unfold growRight at 1. unfold Qgtb. rewrite Hxw.
  unfold growBottom. unfold Qgtb. rewrite Hyh.
  unfold growLeft. rewrite Hx. unfold growTop. by rewrite Hy.
Qed.







(** X10: container adaptation creates and removes nothing, changes no
    flag, type or link of any node and no size but the section's, and
    leaves every node as it is that is neither the section nor one of its
    unlocked children. *)
Theorem expandSection_frame (σ : Scene) (n p : NodeId) :
  section_child σ n p ->
  let σ' := expandSectionIfNeeded n σ in
  length σ' = length σ
  /\ (forall j, links (node σ' j) = links (node σ j))
  /\ (forall j, j <> p ->
        width (node σ' j) = width (node σ j)
        /\ height (node σ' j) = height (node σ j))
  /\ (forall j, j <> p ->
        j ∉ children (node σ p) \/ locked (node σ j) = true ->
        node σ' j = node σ j).
Proof.
  intros Hsc σ'.
  pose proof (expand_table σ n p Hsc) as Ht. cbv zeta in Ht. fold σ' in Ht.
  destruct Ht as (Hlen & Hlinks & _ & _ & _ & _ & Ho).
  split_and!; try done.
  - intros j Hj. by destruct (Ho j Hj) as (? & ? & _).
  - intros j Hj Hout. destruct (Ho j Hj) as (Hw & Hh & Hx & Hy).
    rewrite bool_decide_eq_false_2, andb_false_r in Hx, Hy.
    + by apply node_ext.
    + intros (? & _ & ?). destruct Hout; [done|congruence].
    + intros (? & _ & ?). destruct Hout; [done|congruence].
Qed.

Lemma expandSection_frame_witness :
  node (expandSectionIfNeeded 1 sceneSectionLeft) 2 = node sceneSectionLeft 2.
Proof.
  destruct (expandSection_frame sceneSectionLeft 1 0
              section_child_sceneSectionLeft) as (_ & _ & _ & Hsame).
  apply Hsame; [discriminate|by right].
Defined.

(** ** Duplication under free-form parents *)

Lemma effectiveGap_width gap (a b : Node) :
  width a = width b -> effectiveGap gap a = effectiveGap gap b.
Proof. unfold effectiveGap. by intros ->. Qed.

Lemma bfs_push_excluded (σ : Scene) o direction shiftX shiftY excluded i :
  i ∈ excluded ->
  node (Bfs.pushSiblings σ o direction shiftX shiftY excluded) i = node σ i.
Proof.
  intros Hi. destruct (parent (node σ o)) as [p|] eqn:Hp.
  - apply (pushSiblings_not_pushed σ o p); [done|].
    intros H. by apply Pushed_not_excluded in H.
  - unfold Bfs.pushSiblings. by rewrite Hp.
Qed.

Lemma corridor_push_excluded (σ : Scene) o direction shiftX shiftY excluded i :
  i ∈ excluded ->
  node (Corridor.pushSiblings σ o direction shiftX shiftY excluded) i = node σ i.
Proof.
  intros Hi. unfold Corridor.pushSiblings.
  destruct (parent (node σ o)); [|done]. by apply corridor_excluded.
Qed.

Lemma rigid_of_shape (a b : Node) : shape a = shape b -> rigid a = rigid b.
Proof. unfold shape, rigid. by intros [= -> -> -> -> -> -> _]. Qed.

Lemma adaptsContainer_rigid (a b : Node) :
  rigid a = rigid b -> adaptsContainer a = adaptsContainer b.
Proof. unfold rigid, adaptsContainer. by intros [= _ _ -> -> _ _]. Qed.

Lemma isAutoLayout_rigid (a b : Node) :
  rigid a = rigid b -> isAutoLayout a = isAutoLayout b.
Proof. unfold rigid, isAutoLayout. by intros [= _ _ _ _ -> _]. Qed.

Lemma performDuplicate_nonempty push direction gap pushEnabled (σ : Scene)
    (selection : list NodeId) :
  selection <> [] ->
  performDuplicate push direction gap pushEnabled σ selection =
  let b := foldl (processNode push direction gap pushEnabled)
                 (mkBatch σ [] (list_to_set selection) false 40 [])
                 (sortedSelection σ direction selection) in
  mkBatch (scene b) (newSelection b) (processedIds b)
          (autoLayoutWarning b) (lastUsedEffectiveGap b)
          (notifications b ++ summary direction b).
Proof. by destruct selection. Qed.

Section BatchFacts.
Variable push : Scene -> NodeId -> string -> Q -> Q -> gset NodeId -> Scene.
Variable direction : string.
Variable gap : option Q.
Variable pushEnabled : bool.

Hypothesis push_len : forall (τ : Scene) o sx sy e,
  length (push τ o direction sx sy e) = length τ.
Hypothesis push_shape : forall (τ : Scene) o sx sy e i,
  shape (node (push τ o direction sx sy e) i) = shape (node τ i).
Hypothesis push_excl : forall (τ : Scene) o sx sy e i,
  i ∈ e -> node (push τ o direction sx sy e) i = node τ i.

Variable σ : Scene.
Variable selection : list NodeId.
Hypothesis Hfree : free_form σ selection.

Lemma placeClone_inv (b : Batch) (n p : NodeId) :
  BatchInv direction gap pushEnabled σ selection b ->
  n ∈ selection -> parent (node σ n) = Some p ->
  let b' := placeClone push direction gap pushEnabled n p b in
  BatchInv direction gap pushEnabled σ selection b'
  /\ length (newSelection b') = S (length (newSelection b)).
Proof.
  intros HI Hn Hp.
  destruct (Hfree n Hn) as [Hnlt Hpar].
  destruct (Hpar p Hp) as (Hplt & Hads & Hauto).
  destruct HI as [Hlen0 Hfresh Hrigid Hsel Hstill Hclones].
  unfold placeClone. cbv zeta.
  set (σ0 := scene b) in *. set (ns := newSelection b) in *.
  set (g := effectiveGap gap (node σ0 n)).
  set (sx := width (node σ0 n) + g). set (sy := height (node σ0 n) + g).
  set (σ1 := if pushEnabled then push σ0 n direction sx sy (processedIds b)
             else σ0).
  assert (length σ1 = length σ0) as Hlen1.
  { unfold σ1. destruct pushEnabled; [apply push_len|done]. }
  assert (forall i, shape (node σ1 i) = shape (node σ0 i)) as Hshape1.
  { intros i. unfold σ1. destruct pushEnabled; [apply push_shape|done]. }
  assert (forall i, i ∈ processedIds b -> node σ1 i = node σ0 i) as Hexcl1.
  { intros i Hi. unfold σ1. destruct pushEnabled; [by apply push_excl|done]. }
  assert (pushEnabled = false -> σ1 = σ0) as Hstill1.
  { intros Hoff. unfold σ1. by rewrite Hoff. }
  unfold clone. rewrite Hlen1.
  set (c := length σ0).
  assert (c = (length σ + length ns)%nat) as Hc by done.
  assert (node σ1 n = node σ0 n) as Hn1.
  { apply Hexcl1. by destruct (Hsel n Hn). }
  set (cn := set_children [] (set_parent None (node σ1 n))).
  set (σ2 := σ1 ++ [cn]).
  unfold appendChild.
  set (σp := alter (fun q => set_children (children q ++ [c]) q) p σ2).
  set (σ3 := alter (set_parent (Some p)) c σp).
  set (vx := shiftH direction sx (x (node σ3 n))).
  set (σ4 := alter (set_x vx) c σ3).
  set (vy := shiftV direction sy (y (node σ4 n))).
  set (σ5 := alter (set_y vy) c σ4).
  assert (n <> c) as Hnc by lia.
  assert (p <> c) as Hpc by lia.
  assert (length σp = S c) as Hlenp.
  { unfold σp, σ2. rewrite length_alter, length_app, Hlen1. simpl. lia. }
  assert (length σ5 = S c) as Hlen5.
  { unfold σ5, σ4, σ3. by rewrite !length_alter. }
  assert (forall i, i <> c -> node σ5 i = node σp i) as Hother.
  { intros i Hi. unfold σ5, σ4, σ3. by rewrite !node_alter_ne. }
  assert (forall i, (i < c)%nat ->
            x (node σp i) = x (node σ1 i) /\ y (node σp i) = y (node σ1 i)
            /\ rigid (node σp i) = rigid (node σ1 i)) as Hp1.
  { intros i Hi. unfold σp. rewrite node_alter. unfold σ2.
    case_decide as Hd.
    - destruct Hd as [-> _]. by rewrite node_app_l by lia.
    - by rewrite node_app_l by lia. }
  assert (forall i, (i < c)%nat -> i <> p -> node σp i = node σ1 i) as Hp1'.
  { intros i Hi Hip. unfold σp. rewrite node_alter_ne by done.
    unfold σ2. by rewrite node_app_l by lia. }
  assert (node σp c = cn) as Hcp.
  { unfold σp. rewrite node_alter_ne by done.
    unfold σ2, c. rewrite <- Hlen1. apply node_app_new. }
  assert (node σ5 c = set_y vy (set_x vx (set_parent (Some p) cn))) as Hc5.
  { unfold σ5. rewrite node_alter_eq.
    2:{ unfold σ4, σ3. rewrite !length_alter. lia. }
    unfold σ4. rewrite node_alter_eq.
    2:{ unfold σ3. rewrite !length_alter. lia. }
    unfold σ3. rewrite node_alter_eq by lia. by rewrite Hcp. }
  assert (forall i, (i < length σ)%nat -> rigid (node σ5 i) = rigid (node σ i))
    as Hrigid5.
  { intros i Hi. rewrite Hother by lia.
    destruct (Hp1 i) as (_ & _ & ->); [lia|].
    rewrite (rigid_of_shape _ _ (Hshape1 i)). by apply Hrigid. }
  assert (expandSectionIfNeeded c σ5 = σ5) as Hexp.
  { unfold expandSectionIfNeeded. rewrite Hc5. simpl.
    rewrite adaptsContainer_false_guard; [done|].
    rewrite <- Hads. apply adaptsContainer_rigid. by apply Hrigid5. }
  simpl. rewrite Hexp.
  assert (x (node σ3 n) = x (node σ n) /\ y (node σ4 n) = y (node σ n)) as [Hx3 Hy4].
  { destruct (Hsel n Hn) as (_ & Hxn & Hyn).
    destruct (Hp1 n) as (Hxp & Hyp & _); [lia|].
    split.
    - unfold σ3. rewrite node_alter_ne by done. by rewrite Hxp, Hn1.
    - unfold σ4, σ3. rewrite !node_alter_ne by done. by rewrite Hyp, Hn1. }
  assert (rigid (node σ0 n) = rigid (node σ n)) as Hrn by (by apply Hrigid).
  split; [split|]; simpl.
  - rewrite Hlen5, length_app. simpl. lia.
  - rewrite length_app. simpl. rewrite Nat.add_1_r, seq_S, <- Hfresh.
    by rewrite Hc.
  - done.
  - intros i Hi. destruct (Hsel i Hi) as (Hpi & Hxi & Hyi).
    destruct (Hfree i Hi) as [Hilt _].
    split; [apply elem_of_union; by right|].
    rewrite Hother by lia. destruct (Hp1 i) as (-> & -> & _); [lia|].
    by rewrite Hexcl1.
  - intros Hoff i Hi. destruct (Hstill Hoff i Hi) as [Hxi Hyi].
    rewrite Hother by lia. destruct (Hp1 i) as (-> & -> & _); [lia|].
    by rewrite (Hstill1 Hoff).
  - intros c' [Hc'| ->%list_elem_of_singleton]%elem_of_app.
    + destruct (Hclones c' Hc') as (Hpc' & m & q & Hm & Hq & Hnode).
      split; [apply elem_of_union; by right|].
      exists m, q. split; [done|]. split; [done|].
      assert (length σ <= c' < c)%nat as Hrange.
      { assert (c' ∈ seq (length σ) (length ns)) as Hseq
          by (by rewrite <- Hfresh).
        apply elem_of_seq in Hseq. lia. }
      rewrite Hother by lia. rewrite Hp1' by lia. by rewrite Hexcl1.
    + split; [apply elem_of_union; left; by apply elem_of_singleton|].
      exists n, p. split; [done|]. split; [done|].
      rewrite Hc5. unfold vx, vy, sx, sy, g. rewrite Hx3, Hy4.
      unfold cn. rewrite Hn1.
      destruct (Hsel n Hn) as (_ & Hxn & Hyn).
      unfold rigid in Hrn. injection Hrn as Hw Hh Hl Ht Hlm _.
      rewrite (effectiveGap_width gap (node σ0 n) (node σ n)) by done.
      unfold placed, set_y, set_x, set_parent, set_children. simpl.
      by rewrite Hw, Hh, Hl, Ht, Hlm.
  - by rewrite length_app, Nat.add_1_r.
Qed.
Lemma processNode_inv (b : Batch) (n : NodeId) :
  BatchInv direction gap pushEnabled σ selection b ->
  n ∈ selection ->
  let b' := processNode push direction gap pushEnabled b n in
  BatchInv direction gap pushEnabled σ selection b'
  /\ length (newSelection b')
     = (length (newSelection b) + if hasParent σ n then 1 else 0)%nat.
Proof.
  intros HI Hn. destruct (Hfree n Hn) as [Hnlt Hpar].
  pose proof (bi_rigid _ _ _ _ _ _ HI n Hnlt) as Hrn.
  assert (parent (node (scene b) n) = parent (node σ n)) as Hpn.
  { unfold rigid in Hrn. by injection Hrn. }
  unfold processNode, hasParent. rewrite Hpn.
  destruct (parent (node σ n)) as [p|] eqn:Hp; [|split; [done|simpl; lia]].
  destruct (Hpar p eq_refl) as (Hplt & Hads & Hauto).
  rewrite (isAutoLayout_rigid _ (node σ p)), Hauto.
  - destruct (placeClone_inv b n p HI Hn Hp) as [HI' Hlen'].
    split; [done|]. rewrite Hlen'. lia.
  - by apply (bi_rigid _ _ _ _ _ _ HI).
Qed.

Lemma foldl_processNode_inv (l : list NodeId) (b : Batch) :
  BatchInv direction gap pushEnabled σ selection b ->
  (forall n, n ∈ l -> n ∈ selection) ->
  let b' := foldl (processNode push direction gap pushEnabled) b l in
  BatchInv direction gap pushEnabled σ selection b'
  /\ length (newSelection b')
     = (length (newSelection b)
        + length (filter (fun n => hasParent σ n = true) l))%nat.
Proof.
  revert b. induction l as [|n l IH]; intros b HI Hl; simpl.
  { split; [done|lia]. }
  destruct (processNode_inv b n HI) as [HI' Hlen']; [apply Hl; by left|].
  destruct (IH _ HI') as [HI'' Hlen'']; [intros m Hm; apply Hl; by right|].
  split; [done|]. rewrite Hlen'', Hlen', filter_cons.
  case_decide as Hd.
  - rewrite Hd. simpl. lia.
  - destruct (hasParent σ n); [done|lia].
Qed.

Lemma performDuplicate_inv :
  let b := performDuplicate push direction gap pushEnabled σ selection in
  BatchInv direction gap pushEnabled σ selection b
  /\ length (newSelection b)
     = length (filter (fun n => hasParent σ n = true) selection).
Proof.
  destruct (decide (selection = [])) as [He|Hne].
  { rewrite He. simpl. split; [|done]. split; simpl; try done.
    - intros i Hi. by inversion Hi.
    - intros c Hc. by inversion Hc. }
  rewrite performDuplicate_nonempty by done. cbv zeta.
  destruct (foldl_processNode_inv (sortedSelection σ direction selection)
              (mkBatch σ [] (list_to_set selection) false 40 []))
    as [HI Hlen].
  - split; simpl; try done.
    + intros i Hi. split; [by apply elem_of_list_to_set|done].
    + intros c Hc. by inversion Hc.
  - intros n Hn. unfold sortedSelection in Hn. by rewrite sortBy_perm in Hn.
  - destruct HI as [H1 H2 H3 H4 H5 H6]. split; [by split|].
    simpl in *. rewrite Hlen. apply Permutation_length.
    unfold sortedSelection. by rewrite sortBy_perm.
Qed.
End BatchFacts.

Lemma performDuplicate_push_off push push' direction gap (σ : Scene) selection :
  performDuplicate push direction gap false σ selection
  = performDuplicate push' direction gap false σ selection.
Proof.
  unfold performDuplicate. destruct selection as [|a l]; [done|].
  generalize (sortedSelection σ direction (a :: l)).
  generalize (mkBatch σ [] (list_to_set (a :: l)) false 40 []).
  intros b l'. assert (foldl (processNode push direction gap false) b l'
                       = foldl (processNode push' direction gap false) b l')
    as ->; [|done].
  revert b. induction l' as [|n l' IH]; intros b; simpl; [done|].
  by rewrite IH.
Qed.

(** X11: when every selected node has a free-form parent (neither auto
    layout nor an unlocked section), a duplication leaves every selected
    node where it was, with its size, flags and parent, whatever the
    direction, the gap and the push setting, in both revisions. *)
Theorem duplicate_keeps_originals (σ : Scene) (selection : list NodeId)
    (direction : string) (gap : option Q) (pushEnabled : bool) (n : NodeId) :
  free_form σ selection -> n ∈ selection ->
  untouched σ
    (performDuplicate Bfs.pushSiblings direction gap pushEnabled σ selection) n
  /\ untouched σ
       (performDuplicate Corridor.pushSiblings direction gap pushEnabled σ
          selection) n.
Proof.
  intros Hfree Hn. destruct (Hfree n Hn) as [Hnlt _].
  split.
  - destruct (performDuplicate_inv Bfs.pushSiblings direction gap pushEnabled)
      with (σ := σ) (selection := selection) as [HI _]; try done.
    + intros. apply bfs_push_len.
    + intros. apply bfs_push_shape.
    + intros. by apply bfs_push_excluded.
    + destruct (bi_selected _ _ _ _ _ _ HI n Hn) as (_ & Hx & Hy).
      split_and!; try done. by apply (bi_rigid _ _ _ _ _ _ HI).
  - destruct (performDuplicate_inv Corridor.pushSiblings direction gap
                pushEnabled)
      with (σ := σ) (selection := selection) as [HI _]; try done.
    + intros. apply corridor_push_len.
    + intros. apply corridor_push_shape.
    + intros. by apply corridor_push_excluded.
    + destruct (bi_selected _ _ _ _ _ _ HI n Hn) as (_ & Hx & Hy).
      split_and!; try done. by apply (bi_rigid _ _ _ _ _ _ HI).
Qed.


(** X13: with the push setting off, [pushSiblings] is not consulted, and
    under free-form parents every node of the scene keeps its position,
    size, flags and parent: a duplication only appends the clones. *)
Theorem duplicate_without_push push (σ : Scene) (selection : list NodeId)
    (direction : string) (gap : option Q) (i : NodeId) :
  free_form σ selection -> (i < length σ)%nat ->
  untouched σ (performDuplicate push direction gap false σ selection) i.
Proof.
  intros Hfree Hi.
  rewrite (performDuplicate_push_off push Bfs.pushSiblings).
  destruct (performDuplicate_inv Bfs.pushSiblings direction gap false)
    with (σ := σ) (selection := selection) as [HI _]; try done.
  - intros. apply bfs_push_len.
  - intros. apply bfs_push_shape.
  - intros. by apply bfs_push_excluded.
  - destruct (bi_still _ _ _ _ _ _ HI eq_refl i Hi) as [Hx Hy].
    split_and!; try done. by apply (bi_rigid _ _ _ _ _ _ HI).
Qed.

Lemma free_form_scene2 : free_form scene2 [1%nat].
Proof.
  intros n ->%list_elem_of_singleton. split; [cbn; lia|].
  intros p [= <-]. split_and!; [cbn; lia|reflexivity|reflexivity].
Qed.

Lemma duplicate_keeps_originals_witness :
  untouched scene2
    (performDuplicate Bfs.pushSiblings "right" None true scene2 [1%nat]) 1
  /\ untouched scene2
       (performDuplicate Corridor.pushSiblings "right" None true scene2
          [1%nat]) 1.
Proof.
  apply duplicate_keeps_originals; [apply free_form_scene2|].
  by apply list_elem_of_singleton.
Defined.


Lemma duplicate_without_push_witness :
  untouched scene2
    (performDuplicate Bfs.pushSiblings "right" None false scene2 [1%nat]) 2.
Proof.
  apply duplicate_without_push; [apply free_form_scene2|cbn; lia].
Defined.

(** ** Duplication inside an auto layout container *)

Lemma indexOf_app (n : NodeId) (l1 l2 : list NodeId) :
  n ∉ l1 -> indexOf n (l1 ++ n :: l2) = Z.of_nat (length l1).
Proof.
  unfold indexOf. intros Hn.
  assert (list_find (fun m => m = n) (l1 ++ n :: l2) = Some (length l1, n))
    as ->; [|done].
  apply list_find_Some. split_and!.
  - by apply list_lookup_middle.
  - done.
  - intros j m Hj Hlt ->. apply Hn.
    rewrite lookup_app_l in Hj by done. by apply list_elem_of_lookup_2 in Hj.
Qed.

(** X14: duplicating one node whose parent is an auto layout container
    calls neither [pushSiblings] nor any setter of [x] or [y]: the clone,
    the next free identity, is a copy of the node put in the child list
    right after the node when the direction includes [right] or [bottom]
    and right before it otherwise; every other node is left as it is and
    the notification says that auto layout handles the spacing. *)
Theorem duplicate_in_auto_layout push (σ : Scene) (n p : NodeId)
    (direction : string) (gap : option Q) (pushEnabled : bool)
    (l1 l2 : list NodeId) :
  parent (node σ n) = Some p -> isAutoLayout (node σ p) = true ->
  (p < length σ)%nat ->
  children (node σ p) = l1 ++ n :: l2 -> n ∉ l1 ->
  let b := performDuplicate push direction gap pushEnabled σ [n] in
  let c := length σ in
  newSelection b = [c]
  /\ notifications b = [SpacingByAutoLayout]
  /\ length (scene b) = S (length σ)
  /\ node (scene b) c = set_parent (Some p) (set_children [] (node σ n))
  /\ node (scene b) p =
       set_children
         (if includes direction "right" || includes direction "bottom"
          then l1 ++ n :: c :: l2 else l1 ++ c :: n :: l2)
         (node σ p)
  /\ (forall i, (i < length σ)%nat -> i <> p -> node (scene b) i = node σ i).
Proof.
  intros Hp Hauto Hplt Hch Hn1 b c.
  assert (p <> c) as Hpc by (unfold c; lia).
  set (cn := set_children [] (set_parent None (node σ n))).
  set (σ1 := σ ++ [cn]).
  assert (node σ1 p = node σ p) as H1p by (unfold σ1; by rewrite node_app_l).
  set (k := (Z.of_nat (length l1)
             + (if includes direction "right" || includes direction "bottom"
                then 1 else 0))%Z).
  set (σp := alter (fun q => set_children
                     (take (Z.to_nat k) (children q)
                        ++ c :: drop (Z.to_nat k) (children q)) q) p σ1).
  assert (scene b = alter (set_parent (Some p)) c σp
          /\ newSelection b = [c]
          /\ notifications b = [SpacingByAutoLayout]) as (Hscene & Hnew & Hnote).
  { unfold b, performDuplicate, sortedSelection.
    cbn [sortBy foldr insertSorted foldl].
    unfold processNode. cbn [scene]. rewrite Hp, Hauto.
    unfold insertClone, clone. cbv zeta. cbn [scene]. fold c. fold cn. fold σ1.
    rewrite H1p, Hch, indexOf_app by done. fold k.
    unfold insertChild. rewrite H1p, Hch, decide_True.
    - done.
    - unfold k. rewrite length_app. simpl.
      destruct (includes direction "right" || includes direction "bottom"); lia. }
  assert (length σp = S (length σ)) as Hlenp.
  { unfold σp, σ1. rewrite length_alter, length_app. simpl. lia. }
  rewrite Hscene. split_and!; try done.
  - by rewrite length_alter.
  - rewrite node_alter_eq by (rewrite Hlenp; unfold c; lia).
    unfold σp. rewrite node_alter_ne by done.
    unfold σ1, c. rewrite node_app_new. done.
  - rewrite node_alter_ne by done. unfold σp.
    rewrite node_alter_eq by (unfold σ1; rewrite length_app; lia).
    rewrite H1p, Hch. f_equal. unfold k.
    destruct (includes direction "right" || includes direction "bottom").
    + replace (Z.to_nat (Z.of_nat (length l1) + 1)) with (S (length l1)) by lia.
      assert (l1 ++ n :: l2 = (l1 ++ [n]) ++ l2) as ->
        by (by rewrite <- app_assoc).
      rewrite take_app_length', drop_app_length'
        by (rewrite length_app; simpl; lia).
      by rewrite <- app_assoc.
    + replace (Z.to_nat (Z.of_nat (length l1) + 0)) with (length l1) by lia.
      by rewrite take_app_length, drop_app_length.
  - intros i Hi Hip. rewrite node_alter_ne by (unfold c; lia).
    unfold σp. rewrite node_alter_ne by done.
    unfold σ1. by rewrite node_app_l.
Qed.

Lemma duplicate_in_auto_layout_witness :
  let b := performDuplicate Bfs.pushSiblings "bottom" None true
             sceneAutoLayout [2%nat] in
  newSelection b = [4%nat]
  /\ children (node (scene b) 0) = [1%nat; 2%nat; 4%nat; 3%nat]
  /\ node (scene b) 3 = node sceneAutoLayout 3.
Proof.
  cbv zeta.
  assert (2%nat ∉ [1%nat]) as Hn by decide_closed.
  assert (0 < length sceneAutoLayout)%nat as Hlt by (cbn; lia).
  destruct (duplicate_in_auto_layout Bfs.pushSiblings sceneAutoLayout 2 0
              "bottom" None true [1%nat] [3%nat] eq_refl eq_refl Hlt eq_refl Hn)
    as (Hnew & _ & _ & _ & Hp & Hother).
  split_and!.
  - exact Hnew.
  - rewrite Hp. reflexivity.
  - apply Hother; [cbn; lia|discriminate].
Defined.

(** ** The plugin around the orchestrator *)

(** X15: the settings of a [duplicate] message survive the run: the
    message stores the three of them, and a later run started from a menu
    command on that storage duplicates along the command with the same gap
    (none when auto detect was on) and the same push setting as the message
    did, and then closes. *)
Theorem settings_round_trip push reselect (st : Plugin)
    (direction : string) (gap : Q) (autoDetect pushOn : bool)
    (command : string) (σ : Scene) (selection : list NodeId) :
  String.eqb command "open_ui" || String.eqb command "" = false ->
  let usedGap := if autoDetect then None else Some gap in
  let st1 := onMessage push reselect st (Duplicate direction gap autoDetect pushOn) in
  let st2 := start push reselect command (launch (clientStorage st1) σ selection) in
  clientStorage st1 = mkStorage (Some autoDetect) (Some gap) (Some pushOn)
  /\ page st1 = scene (performDuplicate push direction usedGap pushOn
                         (page st) (pageSelection st))
  /\ page st2 = scene (performDuplicate push command usedGap pushOn σ selection)
  /\ notified st2
     = notifications (performDuplicate push command usedGap pushOn σ selection)
  /\ clientStorage st2 = clientStorage st1
  /\ closed st2 = true.
Proof.
  intros Hcmd usedGap st1 st2.
  assert (clientStorage st1 = mkStorage (Some autoDetect) (Some gap) (Some pushOn))
    as Hst by reflexivity.
  unfold st2, start. rewrite Hcmd, Hst. simpl.
  unfold usedGap. by destruct autoDetect.
Qed.

Lemma settings_round_trip_witness :
  let st1 := onMessage Bfs.pushSiblings false (launch (mkStorage None None None)
               scene2 [1%nat]) (Duplicate "right" 24 false false) in
  let st2 := start Bfs.pushSiblings false "left"
               (launch (clientStorage st1) scene2 [1%nat]) in
  page st2 = scene (performDuplicate Bfs.pushSiblings "left" (Some 24) false
                      scene2 [1%nat]).
Proof.
  cbv zeta.
  by destruct (settings_round_trip Bfs.pushSiblings false
                 (launch (mkStorage None None None) scene2 [1%nat])
                 "right" 24 false false "left" scene2 [1%nat] eq_refl)
       as (_ & _ & H & _).
Defined.

Lemma handle_mirrors push reselect (st : Plugin) (e : Event) :
  mirrors st -> mirrors (handle push reselect st e).
Proof.
  intros [Ha Hp]. destruct e as [[w h|enabled|enabled|d g a p]|sel];
    unfold mirrors; simpl; try done.
  unfold onSelectionChange. by destruct (isAutoDetectEnabled st).
Qed.

(** X16: once the panel is opened, whatever messages and selection changes
    follow, the two flags held in memory are the ones a later run would
    read from the storage (on when the key was never written). *)
Theorem flags_mirror_storage push reselect (command : string)
    (storage : Storage) (σ : Scene) (selection : list NodeId)
    (events : list Event) :
  String.eqb command "open_ui" || String.eqb command "" = true ->
  mirrors (foldl (handle push reselect)
             (start push reselect command (launch storage σ selection))
             events).
Proof.
  intros Hcmd.
  assert (mirrors (start push reselect command (launch storage σ selection)))
    as Hstart.
  { unfold start. rewrite Hcmd. by split. }
  revert Hstart.
  generalize (start push reselect command (launch storage σ selection)).
  induction events as [|e events IH]; intros st Hst; simpl; [done|].
  by apply IH, handle_mirrors.
Qed.

Lemma flags_mirror_storage_witness :
  mirrors (foldl (handle Bfs.pushSiblings false)
             (start Bfs.pushSiblings false "open_ui"
                (launch (mkStorage (Some false) None None) scene2 [1%nat]))
             [Message (TogglePush false); SelectionChange [2%nat];
              Message (Duplicate "right" 24 true true)]).
Proof. by apply flags_mirror_storage. Defined.
